(** * BFAST: Binary Format for Array Streaming and Transmission

    A shallow embedding of [include/bfast.h] (the older copy of the header
    has the same layout code in its [BfastBuilder]), with the properties of
    the layout arithmetic, of the packer and of the unpacker.

    Conventions of the model.
    - [ulong] and [size_t] are 64-bit unsigned integers: a value is a [Z] in
      [0, 2^64) and every operation that can leave that interval is followed
      by [to_ulong].  [int] is 32 bits wide.
    - A byte is a [Byte.byte]; a [vector<byte>] is a [list byte]; objects are
      laid out in memory least significant byte first.
    - A [ByteRange] handed to the packer is a pair of pointers into memory of
      the caller.  The packer only asks for its size and copies the bytes it
      spans, so on the packing side a range is modelled by those bytes.  The
      ranges built by the unpacker point into the stream; they are modelled
      as pairs of stream offsets ([StreamRange]).
    - [pack] hands [copy_to] a pointer into the vector it allocated.  [out]
      is the index that pointer stands at; a write behind the end of the
      vector changes no byte of it and is recorded in [overrun]; a call of
      [pack] that made such a write has no defined behaviour and ends as
      [Undefined].  A read outside the vector given to [unpack] ends the
      call as [Undefined] as well.
    - Assertions are compiled out.  Those of the layout arithmetic hold for
      every input ([aligned_value_aligned], [compute_offsets_values],
      [compute_offsets_length], [output_padding_spec]).
    - [BfastData::unpack] stops after it has taken the name table out of
      range 0 and returns nothing; it has no model here.  What the raw
      unpacker returns is compared with what was packed. *)

From Stdlib Require Import ZArith Lia List.
From Stdlib Require Import Strings.String Strings.Ascii Strings.Byte.
From stdpp Require Import base list.

Local Open Scope Z_scope.

(** ** Machine integers *)

Definition to_ulong (z : Z) : Z := z mod 2 ^ 64.

Definition add64 (a b : Z) : Z := to_ulong (a + b).
Definition sub64 (a b : Z) : Z := to_ulong (a - b).
Definition mul64 (a b : Z) : Z := to_ulong (a * b).

Definition int_bits : Z := 32.

(** Conversion to [int] keeps the low 32 bits, read as a signed number. *)
Definition to_int (z : Z) : Z := (z + 2 ^ 31) mod 2 ^ 32 - 2 ^ 31.

(** [a << n] evaluated at type [int].  The language leaves the shift
    undefined when the count is negative or not smaller than the width of
    the (promoted) left operand: the model returns [None] there. *)
Definition shl_int (a n : Z) : option Z :=
  if (0 <=? n) && (n <? int_bits) then Some (to_int (Z.shiftl a n)) else None.

(** ** Constants *)

(** [const ulong MAGIC = 0xBFA5;] *)
Definition MAGIC : Z := 0xBFA5.

(** [const ulong SWAPPED_MAGIC = 0xA5BF << 48;]  The literal [0xA5BF] fits
    [int], so it has type [int] and the shift is evaluated at that type; only
    its result is converted to [ulong]. *)
Definition SWAPPED_MAGIC : option Z := option_map to_ulong (shl_int 0xA5BF 48).

Definition header_size : Z := 32.
Definition array_offset_size : Z := 16.
Definition array_offsets_start : Z := 64.
Definition alignment : Z := 64.

(** ** Alignment arithmetic *)

Definition is_aligned (n : Z) : bool := n mod alignment =? 0.

Definition aligned_value (n : Z) : Z :=
  if is_aligned n then n
  else sub64 (add64 n alignment) (n mod alignment).

(** ** Data structures *)

Record ArrayOffset := { _begin : Z; _end : Z }.

Record Header := {
  magic : Z;
  data_start : Z;
  data_end : Z;
  num_arrays : Z
}.

(** A range given to the packer: the bytes between its two pointers. *)
Definition ByteRange := list byte.

(** [ByteRange::size] *)
Definition size (range : ByteRange) : Z := Z.of_nat (length range).

(** ** Offset table builder ([BfastRawData], and [BfastBuilder] in the older header) *)

Module BfastRawData.

(** [compute_data_start]: where the first array starts. *)
Definition compute_data_start (ranges : list ByteRange) : Z :=
  let r := 0 in
  let r := add64 r header_size in
  let r := aligned_value r in
  let r := add64 r (mul64 array_offset_size (Z.of_nat (length ranges))) in
  let r := aligned_value r in
  r.

(** One turn of the loop of [compute_offsets]: the state is the cursor [n]
    and the vector [r] built so far. *)
Definition compute_offsets_step (st : Z * list ArrayOffset) (range : ByteRange)
  : Z * list ArrayOffset :=
  let '(n, r) := st in
  let offset := {| _begin := n; _end := add64 n (size range) |} in
  let r := r ++ [offset] in
  let n := add64 n (size range) in
  let n := aligned_value n in
  (n, r).

Definition compute_offsets (ranges : list ByteRange) : list ArrayOffset :=
  snd (fold_left compute_offsets_step ranges (compute_data_start ranges, [])).

(** [compute_needed_size]: [tmp.back()] is read only when [tmp] is not empty. *)
Definition compute_needed_size (ranges : list ByteRange) : Z :=
  let tmp := compute_offsets ranges in
  if (length tmp =? 0)%nat then compute_data_start ranges
  else from_option _end 0 (last tmp).

End BfastRawData.

(** ** The layout as the format describes it, over unbounded integers *)

(** The smallest multiple of 64 that is not below [z]. *)
Definition round_up (z : Z) : Z := 64 * ((z + 63) / 64).

(** Offsets emitted from a cursor for the lengths [L], in order. *)
Fixpoint offsets_from (cursor : Z) (lengths : list Z) : list ArrayOffset :=
  match lengths with
  | [] => []
  | L :: rest =>
      {| _begin := cursor; _end := cursor + L |}
        :: offsets_from (aligned_value (cursor + L)) rest
  end.

(** Where the cursor stands after the lengths have been laid out. *)
Fixpoint layout_end (cursor : Z) (lengths : list Z) : Z :=
  match lengths with
  | [] => cursor
  | L :: rest => layout_end (round_up (cursor + L)) rest
  end.

(** The whole layout stays below 2^64, so no [size_t] computation wraps.
    Every stream that exists in memory satisfies this. *)
Definition fits (ranges : list ByteRange) : Prop :=
  layout_end (round_up (64 + 16 * Z.of_nat (length ranges))) (map size ranges)
    < 2 ^ 64.

(** ** Object representation *)

Definition byte_of_Z (z : Z) : byte :=
  default x00 (Byte.of_N (Z.to_N (z mod 256))).

Definition Z_of_byte (b : byte) : Z := Z.of_N (Byte.to_N b).

(** The [k] low bytes of [v], least significant first. *)
Fixpoint le_bytes (k : nat) (v : Z) : list byte :=
  match k with
  | O => []
  | S k' => byte_of_Z v :: le_bytes k' (v / 256)
  end.

(** The unsigned number stored in [bs], least significant byte first. *)
Fixpoint le_value (bs : list byte) : Z :=
  match bs with
  | [] => 0
  | b :: rest => Z_of_byte b + 256 * le_value rest
  end.

(** What the template [copy_to(T& x, out, current)] needs of [T]: its size
    and the bytes of an object.  (The source writes [(char* )x]; the bytes
    copied are those of the object [x].) *)
Class Layout (T : Type) := {
  sizeof : Z;
  object_bytes : T -> list byte
}.

#[global] Instance Header_Layout : Layout Header := {|
  sizeof := 32;
  object_bytes h :=
    le_bytes 8 (magic h) ++ le_bytes 8 (data_start h)
      ++ le_bytes 8 (data_end h) ++ le_bytes 8 (num_arrays h)
|}.

#[global] Instance ArrayOffset_Layout : Layout ArrayOffset := {|
  sizeof := 16;
  object_bytes o := le_bytes 8 (_begin o) ++ le_bytes 8 (_end o)
|}.

(** ** The memory written by [copy_to]

    The output iterator of [pack] is a pointer into the vector [r]: [out] is
    an index into [mem].  [current] is the [int] that [copy_to] hands by
    reference to its helpers.  A write outside the vector leaves [mem] as it
    is and raises [overrun]. *)

Record store := { mem : list byte; current : Z; overrun : bool }.

Definition M (A : Type) : Type := store -> A * store.

Definition ret {A} (a : A) : M A := fun s => (a, s).

Definition bind {A B} (m : M A) (k : A -> M B) : M B :=
  fun s => let '(a, s') := m s in k a s'.

Declare Scope store_scope.
Delimit Scope store_scope with store.
Notation "x <- m ;; k" := (bind m (fun x => k))
  (at level 100, m at next level, right associativity) : store_scope.
Notation "m ;; k" := (bind m (fun _ => k))
  (at level 100, right associativity) : store_scope.
Local Open Scope store_scope.

Definition get_current : M Z := fun s => (current s, s).

Definition set_current (c : Z) : M unit :=
  fun s => (tt, {| mem := mem s; current := c; overrun := overrun s |}).

(** [current += k] for a [size_t] amount [k]: the sum is formed at [size_t]
    and converted back to [int]. *)
Definition advance_current (k : Z) : M unit :=
  c <- get_current ;; set_current (to_int (add64 (to_ulong c) k)).

(** [*out = b] *)
Definition poke (out : nat) (b : byte) : M unit :=
  fun s =>
    (tt, if (out <? length (mem s))%nat
         then {| mem := <[out := b]> (mem s); current := current s;
                 overrun := overrun s |}
         else {| mem := mem s; current := current s; overrun := true |}).

(** [std::copy(begin, end, out)]: returns the iterator past the last write. *)
Fixpoint copy (src : list byte) (out : nat) : M nat :=
  match src with
  | [] => ret out
  | b :: src' => poke out b ;; copy src' (S out)
  end.

(** ** How a call ends *)

(** How a call ends: it returns, it throws [runtime_error(what)], or it
    reads or writes outside a vector, after which the source has no defined
    behaviour. *)
Inductive outcome (A : Type) : Type :=
  | Returns (a : A)
  | Throws (what : string)
  | Undefined.
Arguments Returns {A} a.
Arguments Throws {A} what.
Arguments Undefined {A}.

Module BfastRawDataWriter.
Import BfastRawData.

(** [copy_to(T& x, OutIter_T out, int& current)] *)
Definition copy_to_object {T} `{Layout T} (x : T) (out : nat) : M nat :=
  advance_current sizeof ;;
  copy (object_bytes x) out.

(** [output_padding]: the loop [while (!is_aligned(current))] runs at most
    63 times; [fuel] bounds it. *)
Fixpoint output_padding_loop (fuel : nat) (out : nat) : M nat :=
  match fuel with
  | O => ret out
  | S fuel' =>
      c <- get_current ;;
      if is_aligned (to_ulong c) then ret out
      else
        poke out x00 ;;
        set_current (to_int (c + 1)) ;;
        output_padding_loop fuel' (S out)
  end.

Definition output_padding (out : nat) : M nat :=
  output_padding_loop (Z.to_nat alignment) out.

(** [for (auto off : offsets) out = copy_to(off, out, current);] *)
Fixpoint copy_offsets (offsets : list ArrayOffset) (out : nat) : M nat :=
  match offsets with
  | [] => ret out
  | off :: rest => out <- copy_to_object off out ;; copy_offsets rest out
  end.

(** The loop that copies the arrays.  The source calls
    [output_padding(out, current)] here without assigning its result: the
    zero bytes are written and [current] advances, [out] stays where the
    array ended. *)
Fixpoint copy_arrays (ranges : list ByteRange) (out : nat) : M nat :=
  match ranges with
  | [] => ret out
  | range :: rest =>
      out <- copy range out ;;
      advance_current (size range) ;;
      _ <- output_padding out ;;
      copy_arrays rest out
  end.

(** The header filled out by [copy_to]. *)
Definition make_header (offsets : list ArrayOffset) : Header :=
  let n := length offsets in
  {| magic := MAGIC;
     data_start := if (n =? 0)%nat then 0 else from_option _begin 0 (head offsets);
     data_end := if (n =? 0)%nat then 0 else from_option _end 0 (last offsets);
     num_arrays := Z.of_nat n |}.

(** [copy_to(OutIter_T out)] *)
Definition copy_to (ranges : list ByteRange) (out : nat) : M unit :=
  let offsets := compute_offsets ranges in
  let n := length offsets in
  set_current 0 ;;
  let h := make_header offsets in
  out <- copy_to_object h out ;;
  out <- output_padding out ;;
  if (n =? 0)%nat then ret tt
  else
    out <- copy_offsets offsets out ;;
    out <- output_padding out ;;
    _ <- copy_arrays ranges out ;;
    ret tt.

(** The store [copy_to] leaves behind when run on the vector allocated by
    [pack]: [vector<byte> r(compute_needed_size())] is zero-filled and
    [r.data()] is index 0. *)
Definition pack_store (ranges : list ByteRange) : store :=
  let r := replicate (Z.to_nat (compute_needed_size ranges)) x00 in
  snd (copy_to ranges 0%nat {| mem := r; current := 0; overrun := false |}).

(** The vector [r] of [pack] when [copy_to] has run. *)
Definition pack_vector (ranges : list ByteRange) : list byte :=
  mem (pack_store ranges).

(** [pack]: it returns the vector, unless [copy_to] wrote outside it. *)
Definition pack (ranges : list ByteRange) : outcome (list byte) :=
  if overrun (pack_store ranges) then Undefined
  else Returns (pack_vector ranges).

End BfastRawDataWriter.

(** ** Unpacking *)

Definition invalid_magic : string :=
  "invalid magic number, either not a BFast, or was created on a machine with different endianess".

Definition data_ends_before_it_starts : string := "data ends before it starts".

(** The bytes [data[pos .. pos + len)], when they all exist. *)
Definition slice (data : list byte) (pos len : Z) : option (list byte) :=
  if (0 <=? pos) && (0 <=? len) && (pos + len <=? Z.of_nat (length data))
  then Some (take (Z.to_nat len) (drop (Z.to_nat pos) data))
  else None.

(** A [ulong] read at byte offset [pos] of the stream. *)
Definition read_ulong (data : list byte) (pos : Z) : option Z :=
  option_map le_value (slice data pos 8).

(** A range built by the unpacker: [&data[_begin]] and [&data[_end]], kept
    as offsets into the stream. *)
Record StreamRange := { range_begin : Z; range_end : Z }.

(** The bytes a range of the unpacker spans. *)
Definition range_bytes (data : list byte) (r : StreamRange) : option (list byte) :=
  slice data (range_begin r) (range_end r - range_begin r).

Module BfastRawDataReader.

(** [array_offsets[i]] *)
Definition read_offset (data : list byte) (i : Z) : option ArrayOffset :=
  match read_ulong data (array_offsets_start + array_offset_size * i),
        read_ulong data (array_offsets_start + array_offset_size * i + 8) with
  | Some b, Some e => Some {| _begin := b; _end := e |}
  | _, _ => None
  end.

(** The loop of [unpack], from index [i], for [count] more turns. *)
Fixpoint read_ranges (data : list byte) (count : nat) (i : Z)
  : option (list StreamRange) :=
  match count with
  | O => Some []
  | S count' =>
      match read_offset data i with
      | None => None
      | Some offset =>
          match read_ranges data count' (i + 1) with
          | None => None
          | Some rest =>
              Some ({| range_begin := _begin offset; range_end := _end offset |}
                      :: rest)
          end
      end
  end.

(** [unpack]: the fields of the header are read through the reference [h]
    when they are used. *)
Definition unpack (data : list byte) : outcome (list StreamRange) :=
  match read_ulong data 0 with
  | None => Undefined
  | Some h_magic =>
      if negb (h_magic =? MAGIC) then Throws invalid_magic
      else
        match read_ulong data 16, read_ulong data 8 with
        | Some h_data_end, Some h_data_start =>
            if h_data_end <? h_data_start then Throws data_ends_before_it_starts
            else
              match read_ulong data 24 with
              | None => Undefined
              | Some h_num_arrays =>
                  match read_ranges data (Z.to_nat h_num_arrays) 0 with
                  | None => Undefined
                  | Some ranges => Returns ranges
                  end
              end
        | _, _ => Undefined
        end
  end.

End BfastRawDataReader.

(** ** Named buffers *)

Record Buffer := { name : string; data : ByteRange }.

Module BfastData.

(** The loop [for (auto b : buffers) names += b.name + '\0';] of
    [to_raw_data].  (The source spells the string [names] and the vector
    [buffer] in this loop; they are the argument [name_data] and the member
    [buffers].) *)
Definition name_data_of (buffers : list Buffer) : string :=
  fold_left
    (fun names b => String.append names (String.append (name b) (String Ascii.zero EmptyString)))
    buffers EmptyString.

(** [to_raw_data]: the ranges of the raw block, the names first. *)
Definition to_raw_data (buffers : list Buffer) : list ByteRange :=
  let name_data := name_data_of buffers in
  let r := [] in
  let r := r ++ [list_byte_of_string name_data] in
  fold_left (fun r b => r ++ [data b]) buffers r.

(** [pack] *)
Definition pack (buffers : list Buffer) : outcome (list byte) :=
  BfastRawDataWriter.pack (to_raw_data buffers).

End BfastData.

(** ** Writing to standard output ([BfastBuilder] of the older header)

    [BfastBuilder] has the layout functions and the [copy_to] of
    [BfastRawData], word for word, and [to_stdout] runs [copy_to] on an
    [ostreambuf_iterator] over [cout].  Such an iterator keeps no position:
    a byte assigned through it, or through any copy of it, goes to the end
    of what the stream holds.  [mem] is what the stream holds. *)

Module BfastBuilder.
Import BfastRawData.

Inductive ostreambuf_iterator : Type := over_cout.

(** [*out++ = b] *)
Definition put (out : ostreambuf_iterator) (b : byte) : M ostreambuf_iterator :=
  fun s =>
    (out, {| mem := mem s ++ [b]; current := current s; overrun := overrun s |}).

(** [std::copy(begin, end, out)] *)
Fixpoint copy (src : list byte) (out : ostreambuf_iterator)
  : M ostreambuf_iterator :=
  match src with
  | [] => ret out
  | b :: src' => out <- put out b ;; copy src' out
  end.

(** [copy_to(T& x, OutIter_T out, int& current)] *)
Definition copy_to_object {T} `{Layout T} (x : T) (out : ostreambuf_iterator)
  : M ostreambuf_iterator :=
  advance_current sizeof ;;
  copy (object_bytes x) out.

(** [output_padding] *)
Fixpoint output_padding_loop (fuel : nat) (out : ostreambuf_iterator)
  : M ostreambuf_iterator :=
  match fuel with
  | O => ret out
  | S fuel' =>
      c <- get_current ;;
      if is_aligned (to_ulong c) then ret out
      else
        out <- put out x00 ;;
        set_current (to_int (c + 1)) ;;
        output_padding_loop fuel' out
  end.

Definition output_padding (out : ostreambuf_iterator) : M ostreambuf_iterator :=
  output_padding_loop (Z.to_nat alignment) out.

Fixpoint copy_offsets (offsets : list ArrayOffset) (out : ostreambuf_iterator)
  : M ostreambuf_iterator :=
  match offsets with
  | [] => ret out
  | off :: rest => out <- copy_to_object off out ;; copy_offsets rest out
  end.

(** The loop that copies the arrays, with the result of [output_padding]
    dropped as in the source. *)
Fixpoint copy_arrays (ranges : list ByteRange) (out : ostreambuf_iterator)
  : M ostreambuf_iterator :=
  match ranges with
  | [] => ret out
  | range :: rest =>
      out <- copy range out ;;
      advance_current (size range) ;;
      _ <- output_padding out ;;
      copy_arrays rest out
  end.

(** [copy_to(OutIter_T out)] *)
Definition copy_to (ranges : list ByteRange) (out : ostreambuf_iterator)
  : M unit :=
  let offsets := compute_offsets ranges in
  let n := length offsets in
  set_current 0 ;;
  let h := BfastRawDataWriter.make_header offsets in
  out <- copy_to_object h out ;;
  out <- output_padding out ;;
  if (n =? 0)%nat then ret tt
  else
    out <- copy_offsets offsets out ;;
    out <- output_padding out ;;
    _ <- copy_arrays ranges out ;;
    ret tt.

(** [to_stdout]: what the call adds to standard output. *)
Definition to_stdout (ranges : list ByteRange) : list byte :=
  mem (snd (copy_to ranges over_cout
              {| mem := []; current := 0; overrun := false |})).

End BfastBuilder.

(** ** Vocabulary of the proofs *)

(** The bytes [bs] stand in [m] from index [pos] on. *)
Definition stored (m : list byte) (pos : nat) (bs : list byte) : Prop :=
  forall j, (j < length bs)%nat -> m !! (pos + j)%nat = bs !! j.

(** From [s] to [s'] the vector kept its length and its bytes below [k]. *)
Definition stable_below (k : nat) (s s' : store) : Prop :=
  length (mem s') = length (mem s)
  /\ forall i, (i < k)%nat -> mem s' !! i = mem s !! i.

(** How many zero bytes [output_padding] writes when [current] is [c]. *)
Definition padding_count (c : Z) : nat := Z.to_nat ((- c) mod 64).

(** An array followed by the zero bytes that bring its size to a multiple
    of 64. *)
Definition padded (range : ByteRange) : list byte :=
  range ++ replicate (padding_count (size range)) x00.

(** From index [k] on the vector holds zero bytes only. *)
Definition zero_from (k : nat) (m : list byte) : Prop :=
  forall j, (k <= j < length m)%nat -> m !! j = Some x00.

(** The vector of [s] starts with [content], which ends at [out], and holds
    zero bytes behind it. *)
Definition holds (s : store) (out : nat) (content : list byte) : Prop :=
  length content = out
  /\ mem s = content ++ replicate (length (mem s) - out) x00.

(** The range an offset of the table designates. *)
Definition range_of (o : ArrayOffset) : StreamRange :=
  {| range_begin := _begin o; range_end := _end o |}.

(** ** Sample inputs *)

(** Two arrays of one and two bytes. *)
Definition two_arrays : list ByteRange := [[x01]; [x02; x03]].

(** One array of one byte. *)
Definition one_array : list ByteRange := [[x01]].

(** Three arrays of 64 bytes, one byte and one byte. *)
Definition three_arrays : list ByteRange := [replicate 64 x01; [x02]; [x03]].

(** The buffers [a = 1 2 3] and [bb = 9 9]. *)
Definition two_buffers : list Buffer :=
  [ {| name := "a"; data := [x01; x02; x03] |};
    {| name := "bb"; data := [x09; x09] |} ].

(** One empty buffer whose name is [a], a null byte, [b]. *)
Definition null_in_name : list Buffer :=
  [ {| name := String "a" (String Ascii.zero (String "b" EmptyString));
       data := [] |} ].

(** A stream of 128 bytes with a good header, one array, and an offset entry
    whose end (90) lies before its begin (100). *)
Definition inverted_offset_stream : list byte :=
  object_bytes {| magic := MAGIC; data_start := 0; data_end := 0; num_arrays := 1 |}
    ++ replicate 32 x00
    ++ object_bytes {| _begin := 100; _end := 90 |}
    ++ replicate 48 x00.

(** A stream of 128 bytes with a good header, one array, and an offset entry
    that ends (at 4096) far behind the end of the stream. *)
Definition overlong_offset_stream : list byte :=
  object_bytes {| magic := MAGIC; data_start := 0; data_end := 0; num_arrays := 1 |}
    ++ replicate 32 x00
    ++ object_bytes {| _begin := 64; _end := 4096 |}
    ++ replicate 48 x00.

(** The magic number as a machine of the other byte order stores it. *)
Definition swapped_magic_bytes : list byte := rev (le_bytes 8 MAGIC).

(** Streams of 64 bytes: one that starts with the swapped magic number, and
    one with the right magic number whose data ends (at 64) before it
    starts (at 128). *)
Definition swapped_magic_stream : list byte :=
  swapped_magic_bytes ++ replicate 56 x00.

Definition ends_before_start_stream : list byte :=
  object_bytes {| magic := MAGIC; data_start := 128; data_end := 64; num_arrays := 0 |}
    ++ replicate 32 x00.

(** * Properties of the arithmetic *)

Section Arith.

Lemma to_ulong_small z : 0 <= z < 2 ^ 64 -> to_ulong z = z.
Proof. intros H. unfold to_ulong. now apply Z.mod_small. Qed.

Lemma to_ulong_range z : 0 <= to_ulong z < 2 ^ 64.
Proof. unfold to_ulong. apply Z.mod_pos_bound. lia. Qed.

Lemma to_ulong_mod_64 z : to_ulong z mod 64 = z mod 64.
Proof.
  unfold to_ulong. apply Z.mod_mod_divide.
  exists (2 ^ 58). reflexivity.
Qed.

Lemma round_up_bounds z : z <= round_up z < z + 64.
Proof.
  unfold round_up.
  pose proof (Z.div_mod (z + 63) 64 ltac:(lia)).
  pose proof (Z.mod_pos_bound (z + 63) 64 ltac:(lia)). lia.
Qed.

Lemma round_up_mod z : round_up z mod 64 = 0.
Proof. unfold round_up. rewrite Z.mul_comm. apply Z.mod_mul. lia. Qed.

Lemma round_up_aligned z : z mod 64 = 0 -> round_up z = z.
Proof.
  intros H. unfold round_up.
  pose proof (Z.div_mod z 64 ltac:(lia)).
  replace (z + 63) with (63 + z / 64 * 64) by lia.
  rewrite Z.div_add by lia. change (63 / 64) with 0. lia.
Qed.

Lemma round_up_unaligned z : z mod 64 <> 0 -> round_up z = z + 64 - z mod 64.
Proof.
  intros H. unfold round_up.
  pose proof (Z.div_mod z 64 ltac:(lia)).
  pose proof (Z.mod_pos_bound z 64 ltac:(lia)).
  replace (z + 63) with ((z mod 64 + 63) + z / 64 * 64) by lia.
  rewrite Z.div_add by lia.
  replace ((z mod 64 + 63) / 64) with 1; [lia|].
  apply Z.div_unique with (r := z mod 64 - 1); lia.
Qed.

Lemma is_aligned_true n : is_aligned n = true <-> n mod 64 = 0.
Proof. unfold is_aligned, alignment. apply Z.eqb_eq. Qed.

Lemma is_aligned_false n : is_aligned n = false <-> n mod 64 <> 0.
Proof. unfold is_aligned, alignment. apply Z.eqb_neq. Qed.

(** [aligned_value] always returns an aligned value, even when it wraps. *)
Lemma aligned_value_aligned n : is_aligned (aligned_value n) = true.
Proof.
  unfold aligned_value. destruct (is_aligned n) eqn:E; [exact E|].
  apply is_aligned_true. unfold sub64, add64, alignment.
  rewrite to_ulong_mod_64, Zminus_mod, to_ulong_mod_64.
  replace (n + 64) with (n + 1 * 64) by lia.
  rewrite Z_mod_plus_full, Zmod_mod, Z.sub_diag. reflexivity.
Qed.

(** Without wrap-around [aligned_value] rounds up to the next multiple of 64. *)
Lemma aligned_value_round_up n :
  0 <= n -> round_up n < 2 ^ 64 -> aligned_value n = round_up n.
Proof.
  intros Hn Hr. unfold aligned_value.
  destruct (is_aligned n) eqn:E.
  - apply is_aligned_true in E. now rewrite round_up_aligned.
  - apply is_aligned_false in E.
    pose proof (round_up_unaligned n E) as Hu.
    pose proof (Z.mod_pos_bound n 64 ltac:(lia)).
    unfold sub64, add64, alignment. rewrite Hu.
    unfold round_up in Hr, Hu.
    rewrite (to_ulong_small (n + 64)) by lia.
    apply to_ulong_small. lia.
Qed.

End Arith.

(** * The offset table builder *)

Section Offsets.
Import BfastRawData.

Lemma size_nonneg (range : ByteRange) : 0 <= size range.
Proof. unfold size. lia. Qed.

Lemma layout_end_ge lengths : forall cursor,
  Forall (fun L => 0 <= L) lengths -> cursor <= layout_end cursor lengths.
Proof.
  induction lengths as [|L rest IH]; intros cursor HL; simpl; [lia|].
  inversion HL as [|? ? HL0 HLrest]; subst.
  specialize (IH (round_up (cursor + L)) HLrest).
  pose proof (round_up_bounds (cursor + L)). lia.
Qed.

Lemma sizes_nonneg (ranges : list ByteRange) :
  Forall (fun L => 0 <= L) (map size ranges).
Proof. induction ranges; simpl; constructor; auto using size_nonneg. Qed.

(** The loop of [compute_offsets] against the cursor description, as long as
    the cursor stays below 2^64. *)
Lemma compute_offsets_loop ranges : forall n r,
  0 <= n ->
  layout_end n (map size ranges) < 2 ^ 64 ->
  fold_left compute_offsets_step ranges (n, r)
  = (layout_end n (map size ranges), r ++ offsets_from n (map size ranges)).
Proof.
  induction ranges as [|range rest IH]; intros n r Hn Hfit; simpl in *.
  - now rewrite app_nil_r.
  - pose proof (size_nonneg range) as Hs.
    pose proof (layout_end_ge (map size rest) (round_up (n + size range))
                  (sizes_nonneg rest)) as Hge.
    pose proof (round_up_bounds (n + size range)) as Hb.
    assert (Hadd : add64 n (size range) = n + size range).
    { unfold add64. apply to_ulong_small. lia. }
    rewrite Hadd.
    assert (Hal : aligned_value (n + size range) = round_up (n + size range)).
    { apply aligned_value_round_up; lia. }
    rewrite Hal, IH by lia.
    now rewrite <- app_assoc.
Qed.

Lemma compute_data_start_fits ranges :
  fits ranges ->
  compute_data_start ranges = round_up (64 + 16 * Z.of_nat (length ranges)).
Proof.
  unfold fits, compute_data_start. intros Hfit.
  pose proof (layout_end_ge (map size ranges)
                (round_up (64 + 16 * Z.of_nat (length ranges)))
                (sizes_nonneg ranges)) as Hge.
  pose proof (round_up_bounds (64 + 16 * Z.of_nat (length ranges))) as Hb.
  change (aligned_value (add64 0 header_size)) with 64.
  unfold mul64, add64, array_offset_size.
  rewrite (to_ulong_small (16 * _)) by lia.
  rewrite to_ulong_small by lia.
  apply aligned_value_round_up; lia.
Qed.

Lemma compute_offsets_fits ranges :
  fits ranges ->
  compute_offsets ranges
  = offsets_from (compute_data_start ranges) (map size ranges).
Proof.
  intros Hfit. unfold compute_offsets.
  rewrite compute_offsets_loop.
  - reflexivity.
  - rewrite compute_data_start_fits by assumption.
    pose proof (round_up_bounds (64 + 16 * Z.of_nat (length ranges))). lia.
  - rewrite compute_data_start_fits by assumption. exact Hfit.
Qed.

Lemma offsets_from_length lengths : forall cursor,
  length (offsets_from cursor lengths) = length lengths.
Proof. induction lengths; intros; simpl; auto. Qed.

(** [compute_offsets] emits one offset per range, wrap-around or not:
    the assertion [offsets.size() == ranges.size()] of [copy_to]. *)
Lemma compute_offsets_step_length ranges : forall n r,
  length (snd (fold_left compute_offsets_step ranges (n, r)))
  = (length r + length ranges)%nat.
Proof.
  induction ranges as [|range rest IH]; intros n r; simpl; [lia|].
  rewrite IH, length_app. simpl. lia.
Qed.

Lemma compute_offsets_length ranges :
  length (compute_offsets ranges) = length ranges.
Proof. unfold compute_offsets. now rewrite compute_offsets_step_length. Qed.

(** C2. The offset table builder starts its cursor at
    [compute_data_start(count) = aligned_value(aligned_value(header_size) + count * 16)];
    for each length [L] in order it emits [{begin: cursor, end: cursor + L}]
    and moves the cursor to [aligned_value(cursor + L)]; and
    [compute_needed_size()] is [compute_data_start(count)] when [count == 0]
    and the end of the last emitted offset otherwise.  (For every layout that
    stays below 2^64.) *)
Theorem compute_offsets_follows_cursor (ranges : list ByteRange) :
  fits ranges ->
  compute_data_start ranges
  = aligned_value (aligned_value header_size + Z.of_nat (length ranges) * 16)
  /\ compute_offsets ranges
     = offsets_from (compute_data_start ranges) (map size ranges)
  /\ compute_needed_size ranges
     = if (Z.of_nat (length ranges) =? 0)
       then compute_data_start ranges
       else from_option _end 0 (last (compute_offsets ranges)).
Proof.
  intros Hfit. split; [|split].
  - rewrite compute_data_start_fits by assumption.
    change (aligned_value header_size) with 64.
    unfold fits in Hfit.
    pose proof (layout_end_ge (map size ranges)
                  (round_up (64 + 16 * Z.of_nat (length ranges)))
                  (sizes_nonneg ranges)) as Hge.
    replace (64 + Z.of_nat (length ranges) * 16)
      with (64 + 16 * Z.of_nat (length ranges)) by lia.
    symmetry. apply aligned_value_round_up; lia.
  - now apply compute_offsets_fits.
  - unfold compute_needed_size.
    rewrite compute_offsets_length.
    destruct ranges; reflexivity.
Qed.

Lemma compute_offsets_follows_cursor_witness :
  fits two_arrays
  /\ compute_data_start two_arrays
     = aligned_value (aligned_value header_size + Z.of_nat (length two_arrays) * 16)
  /\ compute_offsets two_arrays
     = offsets_from (compute_data_start two_arrays) (map size two_arrays)
  /\ compute_needed_size two_arrays
     = if (Z.of_nat (length two_arrays) =? 0)
       then compute_data_start two_arrays
       else from_option _end 0 (last (compute_offsets two_arrays)).
Proof.
  assert (Hfit : fits two_arrays) by reflexivity.
  split; [exact Hfit | exact (compute_offsets_follows_cursor two_arrays Hfit)].
Defined.

End Offsets.

(** * Bytes and little-endian numbers *)

Section Bytes.

Lemma Z_of_byte_range b : 0 <= Z_of_byte b < 256.
Proof.
  unfold Z_of_byte. pose proof (Byte.to_N_bounded b). lia.
Qed.

Lemma Z_of_byte_of_Z z : Z_of_byte (byte_of_Z z) = z mod 256.
Proof.
  unfold Z_of_byte, byte_of_Z.
  pose proof (Z.mod_pos_bound z 256 ltac:(lia)) as Hb.
  destruct (Byte.of_N (Z.to_N (z mod 256))) as [y|] eqn:E; simpl.
  - apply Byte.to_of_N in E. rewrite E. lia.
  - apply Byte.of_N_None_iff in E. lia.
Qed.

Lemma byte_of_Z_of_byte b v : byte_of_Z (Z_of_byte b + 256 * v) = b.
Proof.
  pose proof (Z_of_byte_range b) as Hb.
  unfold byte_of_Z.
  replace (Z_of_byte b + 256 * v) with (Z_of_byte b + v * 256) by lia.
  rewrite Z.mod_add, Z.mod_small by lia.
  unfold Z_of_byte. rewrite N2Z.id, Byte.of_to_N. reflexivity.
Qed.

Lemma le_bytes_length k : forall v, length (le_bytes k v) = k.
Proof. induction k; intros; simpl; auto. Qed.

Lemma le_value_le_bytes k : forall v,
  0 <= v < 256 ^ Z.of_nat k -> le_value (le_bytes k v) = v.
Proof.
  induction k as [|k IH]; intros v Hv.
  - simpl in *. lia.
  - change (le_bytes (S k) v) with (byte_of_Z v :: le_bytes k (v / 256)).
    cbn [le_value]. rewrite Z_of_byte_of_Z.
    rewrite Nat2Z.inj_succ, Z.pow_succ_r in Hv by lia.
    rewrite IH.
    + pose proof (Z.div_mod v 256 ltac:(lia)). lia.
    + split; [apply Z.div_pos; lia|].
      apply Z.div_lt_upper_bound; lia.
Qed.

Lemma le_bytes_le_value bs : le_bytes (length bs) (le_value bs) = bs.
Proof.
  induction bs as [|b rest IH]; [reflexivity|].
  cbn [length le_value le_bytes].
  rewrite byte_of_Z_of_byte. f_equal.
  pose proof (Z_of_byte_range b).
  replace ((Z_of_byte b + 256 * le_value rest) / 256) with (le_value rest).
  - exact IH.
  - apply Z.div_unique with (r := Z_of_byte b); lia.
Qed.

Lemma le_value_ulong v : le_value (le_bytes 8 (to_ulong v)) = to_ulong v.
Proof. apply le_value_le_bytes. apply to_ulong_range. Qed.

End Bytes.

(** * Writing into the vector *)

Section Store.
Import BfastRawData BfastRawDataWriter.

Lemma bind_run {A B} (m : M A) (k : A -> M B) (s : store) :
  bind m k s = k (fst (m s)) (snd (m s)).
Proof. unfold bind. destruct (m s). reflexivity. Qed.

Lemma stable_below_refl k s : stable_below k s s.
Proof. split; auto. Qed.

Lemma stable_below_trans k s1 s2 s3 :
  stable_below k s1 s2 -> stable_below k s2 s3 -> stable_below k s1 s3.
Proof.
  intros [L1 H1] [L2 H2]. split; [congruence|].
  intros i Hi. rewrite H2, H1 by assumption. reflexivity.
Qed.

Lemma stable_below_weaken k k' s s' :
  (k <= k')%nat -> stable_below k' s s' -> stable_below k s s'.
Proof. intros Hk [L H]. split; [exact L|]. intros i Hi. apply H. lia. Qed.

Lemma stable_below_stored k s s' pos bs :
  stable_below k s s' -> (pos + length bs <= k)%nat ->
  stored (mem s) pos bs -> stored (mem s') pos bs.
Proof.
  intros [_ H] Hk Hst j Hj. rewrite H by lia. now apply Hst.
Qed.

Lemma stored_app m pos a b :
  stored m pos (a ++ b) <->
  stored m pos a /\ stored m (pos + length a) b.
Proof.
  unfold stored. split.
  - intros H. split; intros j Hj.
    + rewrite H by (rewrite length_app; lia).
      now rewrite lookup_app_l.
    + replace (pos + length a + j)%nat with (pos + (length a + j))%nat by lia.
      rewrite H by (rewrite length_app; lia).
      rewrite lookup_app_r by lia. f_equal. lia.
  - intros [Ha Hb] j Hj. rewrite length_app in Hj.
    destruct (Nat.lt_ge_cases j (length a)) as [Hlt|Hge].
    + rewrite Ha by assumption. now rewrite lookup_app_l.
    + rewrite lookup_app_r by assumption.
      replace (pos + j)%nat with (pos + length a + (j - length a))%nat by lia.
      apply Hb. lia.
Qed.

(** ** The primitive steps *)

Lemma poke_mem out b s : mem (snd (poke out b s)) = <[out := b]> (mem s).
Proof.
  unfold poke; simpl. destruct (out <? length (mem s))%nat eqn:E; simpl.
  - reflexivity.
  - apply Nat.ltb_ge in E. now rewrite list_insert_ge.
Qed.

Lemma poke_current out b s : current (snd (poke out b s)) = current s.
Proof. unfold poke; simpl. now destruct (out <? length (mem s))%nat. Qed.

Lemma poke_stable k out b s :
  (k <= out)%nat -> stable_below k s (snd (poke out b s)).
Proof.
  intros Hk. split; rewrite poke_mem.
  - apply length_insert.
  - intros i Hi. apply list_lookup_insert_ne. lia.
Qed.

Lemma advance_current_mem k s : mem (snd (advance_current k s)) = mem s.
Proof. reflexivity. Qed.

Lemma advance_current_current k s :
  current (snd (advance_current k s)) = to_int (add64 (to_ulong (current s)) k).
Proof. reflexivity. Qed.

(** ** [std::copy] *)

Lemma copy_spec src : forall out s,
  fst (copy src out s) = (out + length src)%nat
  /\ stable_below out s (snd (copy src out s))
  /\ current (snd (copy src out s)) = current s
  /\ ((out + length src <= length (mem s))%nat ->
      stored (mem (snd (copy src out s))) out src).
Proof.
  induction src as [|b src IH]; intros out s.
  - simpl. split; [lia|]. split; [apply stable_below_refl|].
    split; [reflexivity|]. intros _ j Hj. simpl in Hj. lia.
  - cbn [copy]. rewrite bind_run.
    destruct (IH (S out) (snd (poke out b s))) as (Hout & Hst & Hcur & Hsto).
    pose proof (poke_stable out out b s (le_n _)) as Hp.
    split; [|split; [|split]].
    + rewrite Hout. simpl. lia.
    + apply (stable_below_trans _ _ _ _ Hp).
      apply (stable_below_weaken out (S out)); [lia | exact Hst].
    + rewrite Hcur. apply poke_current.
    + intros Hfit j Hj. simpl in Hfit, Hj. destruct j as [|j].
      * destruct Hst as [_ Hst]. rewrite Nat.add_0_r, Hst by lia.
        rewrite poke_mem. simpl. apply list_lookup_insert_eq. lia.
      * replace (out + S j)%nat with (S out + j)%nat by lia.
        simpl. apply Hsto; [|lia].
        destruct Hp as [Hlen _]. rewrite Hlen. lia.
Qed.

(** ** [output_padding] *)

Lemma to_int_mod_64 z : to_int z mod 64 = z mod 64.
Proof.
  unfold to_int.
  rewrite Zminus_mod, (Z.mod_mod_divide _ (2 ^ 32) 64)
    by (exists (2 ^ 26); reflexivity).
  rewrite <- Zminus_mod. f_equal. lia.
Qed.

Lemma padding_count_aligned c : c mod 64 = 0 -> padding_count c = 0%nat.
Proof.
  intros H. unfold padding_count. rewrite Z.mod_opp_l_z by (lia || exact H).
  reflexivity.
Qed.

Lemma padding_count_step c :
  c mod 64 <> 0 -> padding_count c = S (padding_count (to_int (c + 1))).
Proof.
  intros H. unfold padding_count.
  pose proof (to_int_mod_64 (c + 1)) as Hm.
  assert (Hneg : forall x, (- x) mod 64 = (64 - x mod 64) mod 64).
  { intros x. Z.div_mod_to_equations. lia. }
  rewrite (Hneg c), (Hneg (to_int (c + 1))), Hm.
  clear Hm Hneg. rewrite <- Z2Nat.inj_succ by (apply Z.mod_pos_bound; lia).
  f_equal. Z.div_mod_to_equations. lia.
Qed.

Lemma output_padding_loop_spec fuel : forall out s,
  stable_below out s (snd (output_padding_loop fuel out s))
  /\ (out <= fst (output_padding_loop fuel out s))%nat
  /\ ((padding_count (current s) <= fuel)%nat ->
      fst (output_padding_loop fuel out s) = (out + padding_count (current s))%nat
      /\ is_aligned (to_ulong (current (snd (output_padding_loop fuel out s)))) = true).
Proof.
  induction fuel as [|fuel IH]; intros out s.
  - simpl. split; [apply stable_below_refl|]. split; [lia|].
    intros Hp. split; [lia|].
    apply is_aligned_true. rewrite to_ulong_mod_64.
    destruct (Z.eq_dec (current s mod 64) 0) as [E|E]; [exact E|].
    rewrite (padding_count_step _ E) in Hp. lia.
  - cbn [output_padding_loop]. rewrite bind_run. cbn [get_current fst snd].
    destruct (is_aligned (to_ulong (current s))) eqn:E.
    + simpl. split; [apply stable_below_refl|]. split; [lia|].
      intros _. split; [|exact E].
      apply is_aligned_true in E. rewrite to_ulong_mod_64 in E.
      rewrite padding_count_aligned by exact E. lia.
    + rewrite !bind_run.
      set (s1 := snd (poke out x00 s)).
      set (s2 := snd (set_current (to_int (current s + 1)) s1)).
      destruct (IH (S out) s2) as (Hst & Hle & Hcount).
      assert (Hs2 : stable_below out s s2).
      { apply (stable_below_trans _ _ s1); [apply poke_stable; lia|].
        split; auto. }
      split; [|split].
      * apply (stable_below_trans _ _ s2); [exact Hs2|].
        apply (stable_below_weaken out (S out)); [lia | exact Hst].
      * lia.
      * intros Hp. apply is_aligned_false in E. rewrite to_ulong_mod_64 in E.
        rewrite (padding_count_step _ E) in Hp |- *.
        assert (Hc2 : current s2 = to_int (current s + 1)) by reflexivity.
        rewrite Hc2 in Hcount. destruct Hcount as [Hf Ha]; [lia|].
        split; [rewrite Hf; lia | exact Ha].
Qed.

Lemma padding_count_bound c : (padding_count c <= Z.to_nat alignment)%nat.
Proof.
  unfold padding_count, alignment.
  pose proof (Z.mod_pos_bound (- c) 64 ltac:(lia)). lia.
Qed.

(** [output_padding] ends with [current] aligned: the loop has fuel enough. *)
Lemma output_padding_spec out s :
  stable_below out s (snd (output_padding out s))
  /\ fst (output_padding out s) = (out + padding_count (current s))%nat
  /\ is_aligned (to_ulong (current (snd (output_padding out s)))) = true.
Proof.
  unfold output_padding.
  destruct (output_padding_loop_spec (Z.to_nat alignment) out s)
    as (Hst & _ & Hc).
  destruct (Hc (padding_count_bound _)) as [Hf Ha]. auto.
Qed.

End Store.

(** * The stream written by [copy_to] *)

Section Packing.
Import BfastRawData BfastRawDataWriter.

Lemma Header_bytes_length (h : Header) : length (object_bytes h) = 32%nat.
Proof. reflexivity. Qed.

Lemma ArrayOffset_bytes_length (o : ArrayOffset) : length (object_bytes o) = 16%nat.
Proof. reflexivity. Qed.

Lemma copy_to_object_spec {T} `{Layout T} (x : T) out s :
  fst (copy_to_object x out s) = (out + length (object_bytes x))%nat
  /\ stable_below out s (snd (copy_to_object x out s))
  /\ current (snd (copy_to_object x out s))
     = to_int (add64 (to_ulong (current s)) sizeof)
  /\ ((out + length (object_bytes x) <= length (mem s))%nat ->
      stored (mem (snd (copy_to_object x out s))) out (object_bytes x)).
Proof.
  unfold copy_to_object. rewrite bind_run.
  destruct (copy_spec (object_bytes x) out (snd (advance_current sizeof s)))
    as (Hout & Hst & Hcur & Hsto).
  split; [exact Hout|]. split; [|split].
  - destruct Hst as [Hl Hs]. split; [exact Hl | exact Hs].
  - rewrite Hcur. reflexivity.
  - exact Hsto.
Qed.

Lemma flat_map_offsets_length (offsets : list ArrayOffset) :
  length (flat_map object_bytes offsets) = (16 * length offsets)%nat.
Proof.
  induction offsets as [|o rest IH]; [reflexivity|].
  cbn [flat_map]. rewrite length_app, ArrayOffset_bytes_length, IH. simpl. lia.
Qed.

Lemma copy_offsets_spec offsets : forall out s,
  fst (copy_offsets offsets out s) = (out + 16 * length offsets)%nat
  /\ stable_below out s (snd (copy_offsets offsets out s))
  /\ ((out + 16 * length offsets <= length (mem s))%nat ->
      stored (mem (snd (copy_offsets offsets out s))) out
        (flat_map object_bytes offsets)).
Proof.
  induction offsets as [|o rest IH]; intros out s.
  - simpl. split; [lia|]. split; [apply stable_below_refl|].
    intros _ j Hj. simpl in Hj. lia.
  - cbn [copy_offsets]. rewrite bind_run.
    destruct (copy_to_object_spec o out s) as (Hout & Hst & _ & Hsto).
    rewrite ArrayOffset_bytes_length in Hout, Hsto.
    rewrite Hout.
    destruct (IH (out + 16)%nat (snd (copy_to_object o out s)))
      as (Hout' & Hst' & Hsto').
    split; [|split].
    + rewrite Hout'. simpl length. lia.
    + apply (stable_below_trans _ _ _ _ Hst).
      apply (stable_below_weaken out (out + 16)); [lia | exact Hst'].
    + intros Hfit. simpl length in Hfit. cbn [flat_map].
      apply stored_app. rewrite ArrayOffset_bytes_length. split.
      * apply (stable_below_stored (out + 16) _ _ _ _ Hst').
        { rewrite ArrayOffset_bytes_length. lia. }
        apply Hsto. lia.
      * apply Hsto'. destruct Hst as [Hl _]. rewrite Hl. lia.
Qed.

(** The loop that copies the arrays never writes below the [out] it starts
    from. *)
Lemma copy_arrays_stable ranges : forall out s,
  stable_below out s (snd (copy_arrays ranges out s)).
Proof.
  induction ranges as [|range rest IH]; intros out s.
  - apply stable_below_refl.
  - cbn [copy_arrays]. rewrite !bind_run.
    destruct (copy_spec range out s) as (Hout & Hst & _ & _).
    set (s1 := snd (copy range out s)) in *.
    set (out1 := fst (copy range out s)) in *.
    set (s2 := snd (advance_current (size range) s1)).
    destruct (output_padding_spec out1 s2) as (Hpad & _ & _).
    set (s3 := snd (output_padding out1 s2)) in *.
    apply (stable_below_trans _ _ s1); [exact Hst|].
    apply (stable_below_trans _ _ s2); [split; auto|].
    apply (stable_below_trans _ _ s3).
    + apply (stable_below_weaken out out1); [lia | exact Hpad].
    + apply (stable_below_weaken out out1); [lia | apply IH].
Qed.

(** [copy_to] keeps the size of the vector, whatever it is given. *)
Lemma copy_to_length ranges out s :
  length (mem (snd (copy_to ranges out s))) = length (mem s).
Proof.
  unfold copy_to, bind. cbn [set_current].
  set (s0 := {| mem := mem s; current := 0; overrun := overrun s |}).
  set (offsets := compute_offsets ranges).
  pose proof (copy_to_object_spec (make_header offsets) out s0) as H1.
  destruct (copy_to_object (make_header offsets) out s0) as [out1 s1].
  cbn [fst snd] in H1. destruct H1 as (_ & [L1 _] & _).
  pose proof (output_padding_spec out1 s1) as H2.
  destruct (output_padding out1 s1) as [out2 s2].
  cbn [fst snd] in H2. destruct H2 as ([L2 _] & _).
  destruct (length offsets =? 0)%nat.
  - cbn [ret snd]. rewrite L2, L1. reflexivity.
  - pose proof (copy_offsets_spec offsets out2 s2) as H3.
    destruct (copy_offsets offsets out2 s2) as [out3 s3].
    cbn [fst snd] in H3. destruct H3 as (_ & [L3 _] & _).
    pose proof (output_padding_spec out3 s3) as H4.
    destruct (output_padding out3 s3) as [out4 s4].
    cbn [fst snd] in H4. destruct H4 as ([L4 _] & _).
    pose proof (copy_arrays_stable ranges out4 s4) as [L5 _].
    destruct (copy_arrays ranges out4 s4) as [out5 s5].
    cbn [ret fst snd] in *. rewrite L5, L4, L3, L2, L1. reflexivity.
Qed.

(** When the vector has room for the header and the offset table, [copy_to]
    leaves the header at byte 0 and the table at byte 64: nothing written
    later reaches back there. *)
Lemma copy_to_layout ranges s :
  (64 + 16 * length (compute_offsets ranges) <= length (mem s))%nat ->
  stored (mem (snd (copy_to ranges 0%nat s))) 0
    (object_bytes (make_header (compute_offsets ranges)))
  /\ stored (mem (snd (copy_to ranges 0%nat s))) 64
       (flat_map object_bytes (compute_offsets ranges)).
Proof.
  intros Hroom. unfold copy_to, bind. cbn [set_current].
  set (s0 := {| mem := mem s; current := 0; overrun := overrun s |}).
  set (offsets := compute_offsets ranges) in *.
  set (h := make_header offsets).
  pose proof (copy_to_object_spec h 0%nat s0) as H1.
  destruct (copy_to_object h 0%nat s0) as [out1 s1].
  cbn [fst snd] in H1. destruct H1 as (Hout1 & Hst1 & Hcur1 & Hsto1).
  rewrite Header_bytes_length in Hout1, Hsto1. cbn [Nat.add] in Hout1.
  subst out1.
  assert (Hc1 : current s1 = 32) by (rewrite Hcur1; reflexivity).
  assert (Hs0 : length (mem s0) = length (mem s)) by reflexivity.
  specialize (Hsto1 ltac:(rewrite Hs0; lia)).
  pose proof (output_padding_spec 32%nat s1) as H2.
  destruct (output_padding 32%nat s1) as [out2 s2].
  cbn [fst snd] in H2. destruct H2 as (Hst2 & Hout2 & _).
  rewrite Hc1 in Hout2.
  change (32 + padding_count 32)%nat with 64%nat in Hout2. subst out2.
  assert (Hhead2 : stored (mem s2) 0 (object_bytes h)).
  { apply (stable_below_stored 32 s1 s2);
      [exact Hst2 | rewrite Header_bytes_length; lia | exact Hsto1]. }
  assert (Hlen2 : length (mem s2) = length (mem s)).
  { destruct Hst1 as [L1 _]. destruct Hst2 as [L2 _].
    rewrite L2, L1. reflexivity. }
  destruct (length offsets =? 0)%nat eqn:En.
  - apply Nat.eqb_eq in En. cbn [ret snd]. split; [exact Hhead2|].
    destruct offsets; [|discriminate]. intros j Hj. simpl in Hj. lia.
  - pose proof (copy_offsets_spec offsets 64%nat s2) as H3.
    destruct (copy_offsets offsets 64%nat s2) as [out3 s3].
    cbn [fst snd] in H3. destruct H3 as (Hout3 & Hst3 & Hsto3). subst out3.
    pose proof (output_padding_spec (64 + 16 * length offsets)%nat s3) as H4.
    destruct (output_padding (64 + 16 * length offsets)%nat s3) as [out4 s4].
    cbn [fst snd] in H4. destruct H4 as (Hst4 & Hout4 & _).
    pose proof (copy_arrays_stable ranges out4 s4) as Hst5.
    destruct (copy_arrays ranges out4 s4) as [out5 s5].
    cbn [ret fst snd] in *.
    assert (Hlate : stable_below (64 + 16 * length offsets) s3 s5).
    { apply (stable_below_trans _ _ s4); [exact Hst4|].
      eapply stable_below_weaken; [|exact Hst5]. lia. }
    split.
    + apply (stable_below_stored (64 + 16 * length offsets) s3 s5);
        [exact Hlate | rewrite Header_bytes_length; lia |].
      apply (stable_below_stored 64 s2 s3);
        [exact Hst3 | rewrite Header_bytes_length; lia | exact Hhead2].
    + apply (stable_below_stored (64 + 16 * length offsets) s3 s5);
        [exact Hlate | rewrite flat_map_offsets_length; lia |].
      apply Hsto3. rewrite Hlen2. lia.
Qed.

End Packing.

(** * Reading the stream back *)

Section Reading.
Import BfastRawData BfastRawDataWriter BfastRawDataReader.

Lemma slice_stored (m : list byte) pos bs :
  bs <> [] -> stored m pos bs ->
  slice m (Z.of_nat pos) (Z.of_nat (length bs)) = Some bs.
Proof.
  intros Hne Hst. unfold slice.
  assert (Hlen : (pos + length bs <= length m)%nat).
  { destruct bs as [|b bs]; [congruence|].
    pose proof (Hst (length bs) ltac:(simpl; lia)) as Hlast.
    destruct (lookup_lt_is_Some_2 (b :: bs) (length bs) ltac:(simpl; lia))
      as [x Hx].
    rewrite Hx in Hlast. apply lookup_lt_Some in Hlast. simpl. lia. }
  replace ((0 <=? Z.of_nat pos) && (0 <=? Z.of_nat (length bs))
           && (Z.of_nat pos + Z.of_nat (length bs) <=? Z.of_nat (length m)))
    with true
    by (symmetry; rewrite !andb_true_iff, !Z.leb_le; lia).
  rewrite !Nat2Z.id. f_equal. apply list_eq. intros j.
  destruct (Nat.lt_ge_cases j (length bs)) as [Hj|Hj].
  - rewrite lookup_take_lt, lookup_drop by assumption. now apply Hst.
  - rewrite lookup_take_ge by assumption.
    symmetry. now apply lookup_ge_None_2.
Qed.

Lemma read_ulong_stored (m : list byte) pos v :
  0 <= v < 2 ^ 64 ->
  stored m pos (le_bytes 8 v) -> read_ulong m (Z.of_nat pos) = Some v.
Proof.
  intros Hv Hst. unfold read_ulong.
  pose proof (slice_stored m pos (le_bytes 8 v)) as Hs.
  rewrite le_bytes_length in Hs.
  change (Z.of_nat 8) with 8 in Hs.
  rewrite Hs; [|discriminate|exact Hst].
  simpl option_map. f_equal. now apply (le_value_le_bytes 8).
Qed.

Lemma stored_offsets_lookup (m : list byte) offsets : forall pos k o,
  stored m pos (flat_map object_bytes offsets) ->
  offsets !! k = Some o ->
  stored m (pos + 16 * k) (object_bytes o).
Proof.
  induction offsets as [|o' rest IH]; intros pos k o Hst Hk; [discriminate|].
  cbn [flat_map] in Hst. apply stored_app in Hst. destruct Hst as [H0 Hrest].
  rewrite ArrayOffset_bytes_length in Hrest.
  destruct k as [|k].
  - injection Hk as <-. now rewrite Nat.mul_0_r, Nat.add_0_r.
  - replace (pos + 16 * S k)%nat with (pos + 16 + 16 * k)%nat by lia.
    now apply IH.
Qed.

Lemma read_offset_stored (m : list byte) k o :
  0 <= _begin o < 2 ^ 64 -> 0 <= _end o < 2 ^ 64 ->
  stored m (64 + 16 * k) (object_bytes o) ->
  read_offset m (Z.of_nat k) = Some o.
Proof.
  intros Hb He Hst. unfold read_offset, array_offsets_start, array_offset_size.
  cbn [object_bytes ArrayOffset_Layout] in Hst.
  apply stored_app in Hst. destruct Hst as [H1 H2].
  rewrite le_bytes_length in H2.
  replace (64 + 16 * Z.of_nat k) with (Z.of_nat (64 + 16 * k)) by lia.
  replace (Z.of_nat (64 + 16 * k) + 8) with (Z.of_nat (64 + 16 * k + 8)) by lia.
  rewrite (read_ulong_stored _ _ _ Hb H1), (read_ulong_stored _ _ _ He H2).
  now destruct o.
Qed.

(** A read that lies within the first part of a stream does not depend on
    what follows. *)
Lemma read_ulong_app_l (l rest : list byte) pos :
  0 <= pos -> pos + 8 <= Z.of_nat (length l) ->
  read_ulong (l ++ rest) pos = read_ulong l pos.
Proof.
  intros Hpos Hlen. unfold read_ulong, slice. rewrite length_app.
  replace ((0 <=? pos) && (0 <=? 8)
           && (pos + 8 <=? Z.of_nat (length l + length rest)))
    with true by (symmetry; rewrite !andb_true_iff, !Z.leb_le; lia).
  replace ((0 <=? pos) && (0 <=? 8) && (pos + 8 <=? Z.of_nat (length l)))
    with true by (symmetry; rewrite !andb_true_iff, !Z.leb_le; lia).
  do 2 f_equal.
  rewrite drop_app_le by lia.
  apply take_app_le. rewrite length_drop. lia.
Qed.

End Reading.

(** * The offsets a packer writes *)

Section OffsetValues.
Import BfastRawData.

Lemma aligned_value_range n : 0 <= n < 2 ^ 64 -> 0 <= aligned_value n < 2 ^ 64.
Proof.
  intros Hn. unfold aligned_value. destruct (is_aligned n); [exact Hn|].
  apply to_ulong_range.
Qed.

Lemma compute_data_start_range ranges :
  0 <= compute_data_start ranges < 2 ^ 64.
Proof. unfold compute_data_start. apply aligned_value_range, to_ulong_range. Qed.

Lemma compute_data_start_aligned ranges :
  compute_data_start ranges mod 64 = 0.
Proof.
  unfold compute_data_start. apply is_aligned_true, aligned_value_aligned.
Qed.

(** Every offset of [compute_offsets] begins on a multiple of 64 and holds
    two 64-bit values, wrap-around or not: the assertion [is_aligned(n)] of
    the loop. *)
Lemma compute_offsets_loop_values ranges : forall n r,
  0 <= n < 2 ^ 64 -> n mod 64 = 0 ->
  Forall (fun o => _begin o mod 64 = 0
                   /\ 0 <= _begin o < 2 ^ 64 /\ 0 <= _end o < 2 ^ 64) r ->
  Forall (fun o => _begin o mod 64 = 0
                   /\ 0 <= _begin o < 2 ^ 64 /\ 0 <= _end o < 2 ^ 64)
    (snd (fold_left compute_offsets_step ranges (n, r))).
Proof.
  induction ranges as [|range rest IH]; intros n r Hn Hal Hr; [exact Hr|].
  cbn [fold_left compute_offsets_step]. apply IH.
  - apply aligned_value_range, to_ulong_range.
  - apply is_aligned_true, aligned_value_aligned.
  - apply Forall_app. split; [exact Hr|].
    constructor; [|constructor]. cbn [_begin _end].
    split; [exact Hal|]. split; [exact Hn|]. apply to_ulong_range.
Qed.

Lemma compute_offsets_values ranges :
  Forall (fun o => _begin o mod 64 = 0
                   /\ 0 <= _begin o < 2 ^ 64 /\ 0 <= _end o < 2 ^ 64)
    (compute_offsets ranges).
Proof.
  unfold compute_offsets. apply compute_offsets_loop_values.
  - apply compute_data_start_range.
  - apply compute_data_start_aligned.
  - constructor.
Qed.

(** Without wrap-around the offsets lie behind the cursor they start from. *)
Lemma offsets_from_bounds lengths : forall cursor o,
  Forall (fun L => 0 <= L) lengths -> 0 <= cursor ->
  layout_end cursor lengths < 2 ^ 64 ->
  o ∈ offsets_from cursor lengths ->
  cursor <= _begin o /\ _begin o <= _end o.
Proof.
  induction lengths as [|L rest IH]; intros cursor o HL Hc Hfit Ho.
  - simpl in Ho. inversion Ho.
  - inversion HL as [|? ? HL0 HLrest]; subst.
    cbn [offsets_from layout_end] in *.
    pose proof (round_up_bounds (cursor + L)) as Hb.
    pose proof (layout_end_ge rest (round_up (cursor + L)) HLrest) as Hge.
    apply elem_of_cons in Ho. destruct Ho as [->|Ho].
    + simpl. lia.
    + rewrite aligned_value_round_up in Ho by lia.
      apply IH in Ho; [lia | assumption | lia | assumption].
Qed.

(** The vector [pack] allocates has room for the header and the table. *)
Lemma needed_size_room ranges :
  fits ranges ->
  64 + 16 * Z.of_nat (length ranges) <= compute_needed_size ranges.
Proof.
  intros Hfit.
  pose proof (compute_data_start_fits ranges Hfit) as Hds.
  pose proof (round_up_bounds (64 + 16 * Z.of_nat (length ranges))) as Hb.
  unfold compute_needed_size. rewrite compute_offsets_length.
  destruct (length ranges =? 0)%nat eqn:En; [lia|].
  destruct (last (compute_offsets ranges)) as [o|] eqn:El.
  - apply last_Some_elem_of in El.
    rewrite compute_offsets_fits in El by assumption.
    apply offsets_from_bounds in El.
    + simpl. lia.
    + apply sizes_nonneg.
    + lia.
    + rewrite Hds. exact Hfit.
  - apply last_None in El. apply (f_equal length) in El.
    rewrite compute_offsets_length in El. apply Nat.eqb_neq in En.
    simpl in El. lia.
Qed.

End OffsetValues.

(** * The packed stream *)

Section PackedStream.
Import BfastRawData BfastRawDataWriter BfastRawDataReader.

Lemma compute_needed_size_nonneg ranges : 0 <= compute_needed_size ranges.
Proof.
  unfold compute_needed_size.
  destruct (length (compute_offsets ranges) =? 0)%nat.
  - apply compute_data_start_range.
  - destruct (last (compute_offsets ranges)) as [o|] eqn:El; [|simpl; lia].
    apply last_Some_elem_of in El.
    pose proof (compute_offsets_values ranges) as Hv.
    rewrite Forall_forall in Hv. apply Hv in El. simpl. lia.
Qed.

(** The stream is as long as [compute_needed_size] says. *)
Lemma pack_length ranges :
  Z.of_nat (length (pack_vector ranges)) = compute_needed_size ranges.
Proof.
  unfold pack_vector, pack_store. rewrite copy_to_length. cbn [mem].
  rewrite length_replicate. apply Z2Nat.id, compute_needed_size_nonneg.
Qed.

(** The header and the offset table stand in the stream as they were
    written. *)
Lemma pack_stored ranges :
  fits ranges ->
  stored (pack_vector ranges) 0 (object_bytes (make_header (compute_offsets ranges)))
  /\ stored (pack_vector ranges) 64 (flat_map object_bytes (compute_offsets ranges)).
Proof.
  intros Hfit. unfold pack_vector, pack_store. apply copy_to_layout. cbn [mem].
  rewrite length_replicate, compute_offsets_length.
  pose proof (needed_size_room ranges Hfit). lia.
Qed.

Lemma make_header_data_start offsets :
  Forall (fun o => _begin o mod 64 = 0
                   /\ 0 <= _begin o < 2 ^ 64 /\ 0 <= _end o < 2 ^ 64) offsets ->
  data_start (make_header offsets) mod 64 = 0
  /\ 0 <= data_start (make_header offsets) < 2 ^ 64.
Proof.
  intros Hv. destruct offsets as [|o rest]; cbn.
  - split; [reflexivity | lia].
  - inversion Hv as [|? ? Ho _]; subst. tauto.
Qed.

(** The offset table of the stream holds the offsets of [compute_offsets]. *)
Lemma pack_read_offset ranges k o :
  fits ranges -> compute_offsets ranges !! k = Some o ->
  read_offset (pack_vector ranges) (Z.of_nat k) = Some o.
Proof.
  intros Hfit Hk.
  destruct (pack_stored ranges Hfit) as [_ Htable].
  pose proof (compute_offsets_values ranges) as Hv.
  rewrite Forall_forall in Hv.
  destruct (Hv o) as (_ & Hb & He).
  { apply list_elem_of_lookup. eauto. }
  apply read_offset_stored; [assumption..|].
  now apply (stored_offsets_lookup _ (compute_offsets ranges)).
Qed.

(** The [data_start] field of the stream is the one [copy_to] computed. *)
Lemma pack_read_data_start ranges :
  fits ranges ->
  read_ulong (pack_vector ranges) 8
  = Some (data_start (make_header (compute_offsets ranges))).
Proof.
  intros Hfit.
  destruct (pack_stored ranges Hfit) as [Hhead _].
  cbn [object_bytes Header_Layout] in Hhead.
  apply stored_app in Hhead. destruct Hhead as [_ Hhead].
  apply stored_app in Hhead. destruct Hhead as [Hds _].
  rewrite le_bytes_length in Hds.
  apply (read_ulong_stored _ 8); [|exact Hds].
  apply make_header_data_start, compute_offsets_values.
Qed.

Lemma pack_returns ranges stream :
  pack ranges = Returns stream ->
  overrun (pack_store ranges) = false /\ stream = pack_vector ranges.
Proof.
  unfold pack. destruct (overrun (pack_store ranges)); [discriminate|].
  intros H. split; [reflexivity|].
  exact (f_equal (fun o => match o with Returns x => x | _ => stream end)
           (eq_sym H)).
Qed.

Lemma pack_inside ranges :
  overrun (pack_store ranges) = false ->
  pack ranges = Returns (pack_vector ranges).
Proof. intros H. unfold pack. now rewrite H. Qed.

(** C7. In every stream [pack] returns, the [data_start] field of the header
    and the [begin] field of every entry of the offset table are multiples
    of 64.  (For every layout that stays below 2^64.) *)
Theorem pack_alignment (ranges : list ByteRange) (stream : list byte) :
  fits ranges ->
  pack ranges = Returns stream ->
  (exists h_data_start,
      read_ulong stream 8 = Some h_data_start
      /\ h_data_start mod 64 = 0)
  /\ forall i, (i < length ranges)%nat ->
       exists offset,
         read_offset stream (Z.of_nat i) = Some offset
         /\ _begin offset mod 64 = 0.
Proof.
  intros Hfit Hret. apply pack_returns in Hret. destruct Hret as [_ ->].
  split.
  - eexists. split; [now apply pack_read_data_start|].
    apply make_header_data_start, compute_offsets_values.
  - intros i Hi. rewrite <- compute_offsets_length in Hi.
    destruct (lookup_lt_is_Some_2 _ _ Hi) as [o Ho].
    exists o. split; [now apply pack_read_offset|].
    pose proof (compute_offsets_values ranges) as Hv.
    rewrite Forall_forall in Hv. apply Hv.
    apply list_elem_of_lookup. eauto.
Qed.

Lemma pack_alignment_witness :
  fits two_arrays
  /\ pack two_arrays = Returns (pack_vector two_arrays)
  /\ (exists h_data_start,
         read_ulong (pack_vector two_arrays) 8 = Some h_data_start
         /\ h_data_start mod 64 = 0)
  /\ forall i, (i < length two_arrays)%nat ->
       exists offset,
         read_offset (pack_vector two_arrays) (Z.of_nat i) = Some offset
         /\ _begin offset mod 64 = 0.
Proof.
  assert (Hfit : fits two_arrays) by reflexivity.
  assert (Hret : pack two_arrays = Returns (pack_vector two_arrays))
    by (apply pack_inside; vm_compute; reflexivity).
  split; [exact Hfit|]. split; [exact Hret|].
  exact (pack_alignment two_arrays _ Hfit Hret).
Defined.


(** C8 as it was claimed fails for an empty list of buffers:
    [BfastData::to_raw_data] puts the name table in front of whatever
    buffers there are, so the raw block has one range and the stream is
    not the 64 bytes of a block without ranges. *)
Lemma pack_no_buffers_not_empty :
  ~ (exists stream,
        BfastData.pack [] = Returns stream
        /\ Z.of_nat (length stream) = compute_data_start []
        /\ read_ulong stream 24 = Some 0).
Proof.
  intros (stream & Hret & Hlen & _).
  vm_compute in Hret. injection Hret as <-.
  vm_compute in Hlen. discriminate Hlen.
Qed.

(** C8, amended.  Packing a raw block with no range at all gives a stream
    of [compute_data_start()] = 64 bytes: the header with MAGIC and three
    zero fields, then 32 zero bytes; [unpack] returns no range for it, and
    does so whatever follows the 32 bytes of the header: it reads no
    offset.  Packing an empty list of buffers gives a stream of 128 bytes
    with one array, the empty name table, whose data starts and ends at
    128; [unpack] returns that one range. *)
Theorem pack_empty :
  (exists stream,
      pack [] = Returns stream
      /\ stream = object_bytes {| magic := MAGIC; data_start := 0;
                                  data_end := 0; num_arrays := 0 |}
                  ++ replicate 32 x00
      /\ Z.of_nat (length stream) = compute_data_start []
      /\ compute_data_start [] = 64
      /\ unpack stream = Returns []
      /\ forall rest, unpack (take 32 stream ++ rest) = Returns [])
  /\ (exists stream,
        BfastData.pack [] = Returns stream
        /\ BfastData.to_raw_data [] = [[]]
        /\ length stream = 128%nat
        /\ read_ulong stream 24 = Some 1
        /\ read_ulong stream 8 = Some 128
        /\ read_ulong stream 16 = Some 128
        /\ unpack stream
           = Returns [ {| range_begin := 128; range_end := 128 |} ]).
Proof.
  split.
  - eexists. split; [vm_compute; reflexivity|].
    split; [reflexivity|].
    split; [vm_compute; reflexivity|].
    split; [vm_compute; reflexivity|].
    split; [vm_compute; reflexivity|].
    intros rest. unfold unpack.
    rewrite !read_ulong_app_l by (vm_compute; discriminate).
    vm_compute. reflexivity.
  - eexists. split; [vm_compute; reflexivity|].
    repeat split; vm_compute; reflexivity.
Qed.

End PackedStream.

(** * What the array loop of [copy_to] does to the stream *)

Section ArrayLoop.
Import BfastRawData BfastRawDataWriter BfastRawDataReader.

Lemma padding_count_mod c c' :
  c mod 64 = c' mod 64 -> padding_count c = padding_count c'.
Proof.
  intros H. unfold padding_count. f_equal.
  Z.div_mod_to_equations. lia.
Qed.

Lemma copy_offsets_current offsets : forall out s,
  current (snd (copy_offsets offsets out s)) mod 64
  = (current s + 16 * Z.of_nat (length offsets)) mod 64.
Proof.
  induction offsets as [|o rest IH]; intros out s.
  - simpl. f_equal. lia.
  - cbn [copy_offsets]. unfold bind.
    pose proof (copy_to_object_spec o out s) as H.
    destruct (copy_to_object o out s) as [out1 s1].
    cbn [fst snd] in H. destruct H as (_ & _ & Hcur & _).
    assert (Hx : current s1 mod 64 = (current s + 16) mod 64).
    { rewrite Hcur, to_int_mod_64. unfold add64. rewrite to_ulong_mod_64.
      cbn [sizeof ArrayOffset_Layout].
      rewrite <- Zplus_mod_idemp_l, to_ulong_mod_64, Zplus_mod_idemp_l.
      reflexivity. }
    rewrite IH, <- Zplus_mod_idemp_l, Hx, Zplus_mod_idemp_l.
    f_equal. cbn [length]. lia.
Qed.

(** The array loop stores the arrays one right behind the other from the
    [out] it starts at: the padding it writes behind an array is covered by
    the next array. *)
Lemma copy_arrays_contiguous ranges : forall out s,
  (out + length (concat ranges) <= length (mem s))%nat ->
  stored (mem (snd (copy_arrays ranges out s))) out (concat ranges).
Proof.
  induction ranges as [|range rest IH]; intros out s Hroom.
  - intros j Hj. simpl in Hj. lia.
  - cbn [concat] in *. rewrite length_app in Hroom.
    cbn [copy_arrays]. unfold bind.
    pose proof (copy_spec range out s) as H1.
    destruct (copy range out s) as [out1 s1].
    cbn [fst snd] in H1. destruct H1 as (Hout1 & Hst1 & _ & Hsto1).
    subst out1.
    destruct (advance_current (size range) s1) as [u s2] eqn:E2.
    assert (Hm2 : mem s2 = mem s1).
    { pose proof (advance_current_mem (size range) s1) as Hm.
      rewrite E2 in Hm. exact Hm. }
    pose proof (output_padding_spec (out + length range)%nat s2) as H3.
    destruct (output_padding (out + length range)%nat s2) as [out3 s3].
    cbn [fst snd] in H3. destruct H3 as (Hst3 & _ & _).
    pose proof (copy_arrays_stable rest (out + length range)%nat s3) as Hst4.
    assert (Hlen3 : length (mem s3) = length (mem s)).
    { destruct Hst1 as [L1 _]. destruct Hst3 as [L3 _].
      rewrite L3, Hm2, L1. reflexivity. }
    specialize (IH (out + length range)%nat s3 ltac:(rewrite Hlen3; lia)).
    destruct (copy_arrays rest (out + length range)%nat s3) as [out4 s4].
    cbn [fst snd] in *.
    apply stored_app. split; [|exact IH].
    apply (stable_below_stored (out + length range) s3 s4);
      [exact Hst4 | lia |].
    intros j Hj. destruct Hst3 as [_ Hst3]. rewrite Hst3, Hm2 by lia.
    apply Hsto1; lia.
Qed.

Lemma offsets_from_last_end lengths : forall cursor o,
  Forall (fun L => 0 <= L) lengths -> 0 <= cursor ->
  layout_end cursor lengths < 2 ^ 64 ->
  last (offsets_from cursor lengths) = Some o ->
  cursor + foldr Z.add 0 lengths <= _end o.
Proof.
  induction lengths as [|L rest IH]; intros cursor o HL Hc Hfit Ho.
  - discriminate.
  - inversion HL as [|? ? HL0 HLrest]; subst.
    cbn [offsets_from layout_end foldr] in *.
    pose proof (round_up_bounds (cursor + L)) as Hb.
    pose proof (layout_end_ge rest (round_up (cursor + L)) HLrest) as Hge.
    rewrite last_cons in Ho.
    destruct (last (offsets_from (aligned_value (cursor + L)) rest))
      as [o'|] eqn:El.
    + injection Ho as ->.
      rewrite aligned_value_round_up in El by lia.
      apply IH in El; [lia | assumption | lia | assumption].
    + injection Ho as <-. apply last_None in El.
      destruct rest; [simpl; lia | discriminate].
Qed.

Lemma concat_length_sizes (ranges : list ByteRange) :
  Z.of_nat (length (concat ranges)) = foldr Z.add 0 (map size ranges).
Proof.
  induction ranges as [|range rest IH]; [reflexivity|].
  cbn [concat map foldr]. rewrite length_app. unfold size at 1. lia.
Qed.

(** In the stream of [pack] the arrays stand one right behind the other
    from [compute_data_start()] on, for every layout below 2^64: an array
    stands where the offset table says only if the sizes of all arrays
    before it are multiples of 64. *)
Lemma pack_arrays_contiguous ranges :
  fits ranges ->
  stored (pack_vector ranges) (Z.to_nat (compute_data_start ranges)) (concat ranges).
Proof.
  intros Hfit.
  destruct ranges as [|range0 rest0] eqn:Eranges.
  { intros j Hj. simpl in Hj. lia. }
  rewrite <- Eranges in *.
  assert (Hne : (length ranges =? 0)%nat = false) by now subst.
  clear Eranges.
  pose proof (compute_data_start_fits ranges Hfit) as Hds.
  pose proof (round_up_bounds (64 + 16 * Z.of_nat (length ranges))) as Hb.
  assert (Hroom : compute_data_start ranges + Z.of_nat (length (concat ranges))
                  <= compute_needed_size ranges).
  { unfold compute_needed_size. rewrite compute_offsets_length, Hne.
    destruct (last (compute_offsets ranges)) as [o|] eqn:El.
    - rewrite compute_offsets_fits in El by assumption.
      apply offsets_from_last_end in El.
      + rewrite concat_length_sizes. simpl. lia.
      + apply sizes_nonneg.
      + lia.
      + rewrite Hds. exact Hfit.
    - apply last_None in El. apply (f_equal length) in El.
      rewrite compute_offsets_length in El. apply Nat.eqb_neq in Hne.
      simpl in El. lia. }
  unfold pack_vector, pack_store.
  set (s := {| mem := replicate (Z.to_nat (compute_needed_size ranges)) x00;
               current := 0; overrun := false |}).
  assert (Hlen : length (mem s) = Z.to_nat (compute_needed_size ranges))
    by apply length_replicate.
  unfold copy_to, bind. cbn [set_current].
  set (s0 := {| mem := mem s; current := 0; overrun := overrun s |}).
  set (offsets := compute_offsets ranges).
  assert (Hn : length offsets = length ranges) by apply compute_offsets_length.
  pose proof (copy_to_object_spec (make_header offsets) 0%nat s0) as H1.
  destruct (copy_to_object (make_header offsets) 0%nat s0) as [out1 s1].
  cbn [fst snd] in H1. destruct H1 as (Hout1 & [L1 _] & Hcur1 & _).
  rewrite Header_bytes_length in Hout1. cbn [Nat.add] in Hout1. subst out1.
  assert (Hc1 : current s1 = 32) by (rewrite Hcur1; reflexivity).
  pose proof (output_padding_spec 32%nat s1) as H2.
  destruct (output_padding 32%nat s1) as [out2 s2].
  cbn [fst snd] in H2. destruct H2 as ([L2 _] & Hout2 & Hal2).
  rewrite Hc1 in Hout2.
  change (32 + padding_count 32)%nat with 64%nat in Hout2. subst out2.
  apply is_aligned_true in Hal2. rewrite to_ulong_mod_64 in Hal2.
  rewrite Hn, Hne.
  pose proof (copy_offsets_spec offsets 64%nat s2) as H3.
  pose proof (copy_offsets_current offsets 64%nat s2) as Hc3.
  destruct (copy_offsets offsets 64%nat s2) as [out3 s3].
  cbn [fst snd] in H3, Hc3. destruct H3 as (Hout3 & [L3 _] & _). subst out3.
  pose proof (output_padding_spec (64 + 16 * length offsets)%nat s3) as H4.
  destruct (output_padding (64 + 16 * length offsets)%nat s3) as [out4 s4].
  cbn [fst snd] in H4. destruct H4 as ([L4 _] & Hout4 & _).
  assert (Hstart : out4 = Z.to_nat (compute_data_start ranges)).
  { rewrite Hout4, Hds, Hn.
    rewrite (padding_count_mod _ (16 * Z.of_nat (length ranges))).
    - unfold padding_count, round_up. Z.div_mod_to_equations. lia.
    - rewrite Hc3, Hn, <- Zplus_mod_idemp_l, Hal2. reflexivity. }
  pose proof (copy_arrays_contiguous ranges out4 s4) as H5.
  destruct (copy_arrays ranges out4 s4) as [out5 s5].
  cbn [ret fst snd] in *. rewrite <- Hstart. apply H5.
  rewrite L4, L3, L2, L1. cbn [mem s0]. rewrite Hlen, Hstart.
  pose proof (compute_data_start_range ranges). lia.
Qed.

(** C5, on the ranges of one and two bytes.  The offset table puts the first
    array at [128, 129) and the second at [192, 194), so bytes 129 to 191
    are padding; the stream holds the second array at bytes 129 and 130 and
    zero bytes where the table says it is. *)
Theorem padding_holds_next_array :
  compute_offsets two_arrays
  = [ {| _begin := 128; _end := 129 |}; {| _begin := 192; _end := 194 |} ]
  /\ exists stream,
       pack two_arrays = Returns stream
       /\ stream !! 129%nat = Some x02
       /\ stream !! 130%nat = Some x03
       /\ drop 192 stream = [x00; x00].
Proof.
  split; [vm_compute; reflexivity|].
  eexists. split; [vm_compute; reflexivity|].
  vm_compute. repeat split; reflexivity.
Qed.

(** C1, on the buffers [a = 1 2 3] and [bb = 9 9].  The stream [pack]
    returns is accepted by [unpack], which finds three ranges: the name
    table, intact, then three zero bytes and two zero bytes where the two
    arrays should be.  The bytes of the arrays lie right behind the name
    table, at offset 133. *)
Theorem unpack_pack_loses_arrays :
  BfastData.to_raw_data two_buffers
  = [ [x61; x00; x62; x62; x00]; [x01; x02; x03]; [x09; x09] ]
  /\ exists stream ranges,
    BfastData.pack two_buffers = Returns stream
    /\ unpack stream = Returns ranges
    /\ map (range_bytes stream) ranges
       = [ Some [x61; x00; x62; x62; x00];
           Some [x00; x00; x00]; Some [x00; x00] ]
    /\ map (range_bytes stream) ranges
       <> map Some (BfastData.to_raw_data two_buffers)
    /\ take 5 (drop 133 stream) = [x01; x02; x03; x09; x09].
Proof.
  split; [reflexivity|].
  eexists. eexists.
  split; [vm_compute; reflexivity|].
  split; [vm_compute; reflexivity|].
  split; [vm_compute; reflexivity|].
  split; [vm_compute; discriminate | vm_compute; reflexivity].
Qed.

(** The zero bytes that [output_padding] writes behind the last array fall
    outside the vector when nothing was misplaced before it. *)
Lemma pack_one_array_overruns : overrun (pack_store one_array) = true.
Proof. vm_compute. reflexivity. Qed.

End ArrayLoop.

(** * The constants *)

Section Constants.

(** C9, on the initialiser of SWAPPED_MAGIC.  Evaluated at [int], the shift
    by 48 is undefined, so the constant is not the value that the same
    shift gives at 64 bits, which is the magic number with its bytes
    swapped. *)
Theorem SWAPPED_MAGIC_undefined :
  SWAPPED_MAGIC = None
  /\ SWAPPED_MAGIC <> Some 0xA5BF000000000000
  /\ to_ulong (Z.shiftl 0xA5BF 48) = 0xA5BF000000000000
  /\ le_bytes 8 0xA5BF000000000000 = swapped_magic_bytes.
Proof.
  split; [reflexivity|]. split; [discriminate|].
  split; vm_compute; reflexivity.
Qed.

End Constants.

(** * Names *)

Section Names.
Import BfastData.

Lemma list_byte_of_string_app (a b : string) :
  list_byte_of_string (String.append a b)
  = list_byte_of_string a ++ list_byte_of_string b.
Proof.
  induction a as [|c a IH]; [reflexivity|].
  cbn [String.append]. unfold list_byte_of_string in *.
  cbn [list_ascii_of_string List.map]. now rewrite IH.
Qed.

Lemma name_data_loop buffers : forall names,
  list_byte_of_string
    (fold_left
       (fun names b =>
          String.append names
            (String.append (name b) (String Ascii.zero EmptyString)))
       buffers names)
  = list_byte_of_string names
    ++ flat_map (fun b => list_byte_of_string (name b) ++ [x00]) buffers.
Proof.
  induction buffers as [|b rest IH]; intros names; cbn [fold_left flat_map].
  - now rewrite app_nil_r.
  - rewrite IH, !list_byte_of_string_app, <- app_assoc. reflexivity.
Qed.

Lemma to_raw_data_loop buffers : forall r : list ByteRange,
  fold_left (fun r b => r ++ [data b]) buffers r = r ++ map data buffers.
Proof.
  induction buffers as [|b rest IH]; intros r; cbn [fold_left map].
  - now rewrite app_nil_r.
  - rewrite IH, <- app_assoc. reflexivity.
Qed.

(** C4 as it was claimed fails: a buffer whose name holds a null byte is
    packed like any other. *)
Lemma pack_accepts_null_in_name :
  ~ (forall buffers : list Buffer,
        (exists b, b ∈ buffers /\ x00 ∈ list_byte_of_string (name b)) ->
        exists what, pack buffers = Throws what).
Proof.
  intros Hclaim.
  destruct (Hclaim null_in_name) as [what Hw].
  - eexists. split; [apply list_elem_of_here|].
    vm_compute. apply list_elem_of_further, list_elem_of_here.
  - vm_compute in Hw. discriminate Hw.
Qed.

(** Through [to_raw_data] the raw block always has the name table as its
    first range: with no buffer at all the stream has one array, the empty
    name table, and is 128 bytes long. *)
Lemma pack_no_buffers :
  to_raw_data [] = [[]]
  /\ exists stream,
       pack [] = Returns stream
       /\ length stream = 128%nat
       /\ read_ulong stream 24 = Some 1.
Proof.
  split; [reflexivity|]. eexists. split; [vm_compute; reflexivity|].
  split; vm_compute; reflexivity.
Qed.

End Names.

(** * Unpacking *)

Section Unpacking.
Import BfastRawDataReader.

Lemma slice_Some data pos len :
  0 <= pos -> 0 <= len -> pos + len <= Z.of_nat (length data) ->
  slice data pos len = Some (take (Z.to_nat len) (drop (Z.to_nat pos) data)).
Proof.
  intros Hp Hl Hb. unfold slice.
  replace ((0 <=? pos) && (0 <=? len) && (pos + len <=? Z.of_nat (length data)))
    with true by (symmetry; rewrite !andb_true_iff, !Z.leb_le; lia).
  reflexivity.
Qed.

Lemma read_ulong_in_bounds data pos :
  0 <= pos -> pos + 8 <= Z.of_nat (length data) ->
  exists v, read_ulong data pos = Some v.
Proof.
  intros Hp Hb. unfold read_ulong. rewrite slice_Some by lia. simpl. eauto.
Qed.

Lemma le_value_nonneg bs : 0 <= le_value bs.
Proof.
  induction bs as [|b rest IH]; simpl; [lia|].
  pose proof (Z_of_byte_range b). lia.
Qed.

Lemma read_ulong_nonneg data pos v : read_ulong data pos = Some v -> 0 <= v.
Proof.
  unfold read_ulong. destruct (slice data pos 8); [|discriminate].
  simpl. intros [= <-]. apply le_value_nonneg.
Qed.

Lemma read_offset_in_bounds data i :
  0 <= i -> 64 + 16 * (i + 1) <= Z.of_nat (length data) ->
  exists o, read_offset data i = Some o.
Proof.
  intros Hi Hb. unfold read_offset, array_offsets_start, array_offset_size.
  destruct (read_ulong_in_bounds data (64 + 16 * i)) as [b Hrb]; [lia..|].
  destruct (read_ulong_in_bounds data (64 + 16 * i + 8)) as [e Hre]; [lia..|].
  rewrite Hrb, Hre. eauto.
Qed.

(** The loop of [unpack] turns each entry of the table into a range, as it
    is read. *)
Lemma read_ranges_spec data count : forall i,
  0 <= i -> 64 + 16 * (i + Z.of_nat count) <= Z.of_nat (length data) ->
  exists ranges,
    read_ranges data count i = Some ranges
    /\ length ranges = count
    /\ forall k, (k < count)%nat ->
         exists o, read_offset data (i + Z.of_nat k) = Some o
                   /\ ranges !! k = Some (range_of o).
Proof.
  induction count as [|count IH]; intros i Hi Hb.
  - exists []. split; [reflexivity|]. split; [reflexivity|]. intros k Hk. lia.
  - cbn [read_ranges].
    destruct (read_offset_in_bounds data i) as [o Ho]; [lia..|].
    destruct (IH (i + 1)) as (rest & Hrest & Hlen & Hk); [lia..|].
    rewrite Ho, Hrest. eexists. split; [reflexivity|].
    split; [simpl; now rewrite Hlen|].
    intros [|k] Hlt.
    + exists o. rewrite Z.add_0_r. split; [exact Ho | reflexivity].
    + destruct (Hk k ltac:(lia)) as (o' & Ho' & Hl').
      exists o'. split; [|exact Hl'].
      replace (i + Z.of_nat (S k)) with (i + 1 + Z.of_nat k) by lia. exact Ho'.
Qed.

(** C3 as it was claimed fails: the entry of [inverted_offset_stream] has
    its end before its begin, that of [overlong_offset_stream] ends behind
    the stream, and [unpack] returns a range for either. *)
Lemma unpack_accepts_bad_offsets :
  ~ (forall (data : list byte) n i o,
        read_ulong data 24 = Some n -> 0 <= i < n ->
        read_offset data i = Some o ->
        ~ (_begin o <= _end o <= Z.of_nat (length data)) ->
        exists what, unpack data = Throws what).
Proof.
  intros Hclaim.
  destruct (Hclaim inverted_offset_stream 1 0 {| _begin := 100; _end := 90 |})
    as [what Hw].
  - reflexivity.
  - lia.
  - reflexivity.
  - simpl. lia.
  - vm_compute in Hw. discriminate Hw.
Qed.

Lemma unpack_overlong_offset :
  unpack overlong_offset_stream
  = Returns [ {| range_begin := 64; range_end := 4096 |} ]
  /\ length overlong_offset_stream = 128%nat.
Proof. vm_compute. split; reflexivity. Qed.

(** C3, amended.  [unpack] checks the header and nothing else: when the
    magic number is right, the data does not end before it starts and the
    stream holds the [num_arrays] entries of the offset table, it returns
    one range per entry, with the begin and end the entry holds, whatever
    they are. *)
Theorem unpack_keeps_offsets_unchecked (data : list byte) (s e n : Z) :
  read_ulong data 0 = Some MAGIC ->
  read_ulong data 8 = Some s ->
  read_ulong data 16 = Some e ->
  s <= e ->
  read_ulong data 24 = Some n ->
  64 + 16 * n <= Z.of_nat (length data) ->
  exists ranges,
    unpack data = Returns ranges
    /\ Z.of_nat (length ranges) = n
    /\ forall i, (i < length ranges)%nat ->
         exists o, read_offset data (Z.of_nat i) = Some o
                   /\ ranges !! i = Some (range_of o).
Proof.
  intros Hm Hs He Hse Hn Hb.
  pose proof (read_ulong_nonneg _ _ _ Hn) as Hn0.
  destruct (read_ranges_spec data (Z.to_nat n) 0) as (ranges & Hr & Hlen & Hk);
    [lia..|].
  exists ranges. split; [|split].
  - unfold unpack. rewrite Hm, Z.eqb_refl. cbn [negb].
    rewrite He, Hs.
    replace (e <? s) with false by (symmetry; apply Z.ltb_ge; lia).
    rewrite Hn, Hr. reflexivity.
  - lia.
  - intros i Hi. rewrite Hlen in Hi. exact (Hk i Hi).
Qed.

Lemma unpack_keeps_offsets_unchecked_witness :
  read_ulong inverted_offset_stream 0 = Some MAGIC
  /\ read_ulong inverted_offset_stream 24 = Some 1
  /\ exists ranges,
       unpack inverted_offset_stream = Returns ranges
       /\ Z.of_nat (length ranges) = 1
       /\ forall i, (i < length ranges)%nat ->
            exists o, read_offset inverted_offset_stream (Z.of_nat i) = Some o
                      /\ ranges !! i = Some (range_of o).
Proof.
  split; [reflexivity|]. split; [reflexivity|].
  apply (unpack_keeps_offsets_unchecked inverted_offset_stream 0 0 1).
  - reflexivity.
  - reflexivity.
  - reflexivity.
  - lia.
  - reflexivity.
  - vm_compute. discriminate.
Defined.

(** The two errors of the header are the only ones [unpack] raises. *)
Lemma unpack_throws_header_errors data what :
  unpack data = Throws what ->
  what = invalid_magic \/ what = data_ends_before_it_starts.
Proof.
  unfold unpack.
  destruct (read_ulong data 0) as [m|]; [|discriminate].
  destruct (negb (m =? MAGIC)); [intros [= <-]; now left|].
  destruct (read_ulong data 16) as [e|]; [|discriminate].
  destruct (read_ulong data 8) as [s|]; [|discriminate].
  destruct (e <? s); [intros [= <-]; now right|].
  destruct (read_ulong data 24) as [n|]; [|discriminate].
  destruct (read_ranges data (Z.to_nat n) 0); discriminate.
Qed.

(** The magic field as bytes: it reads as MAGIC exactly when the first
    eight bytes of the stream are those of MAGIC. *)
Lemma read_magic_bytes data :
  (8 <= length data)%nat ->
  exists m, read_ulong data 0 = Some m
            /\ (m = MAGIC <-> take 8 data = le_bytes 8 MAGIC).
Proof.
  intros Hlen. unfold read_ulong. rewrite slice_Some by lia.
  change (Z.to_nat 8) with 8%nat. change (Z.to_nat 0) with 0%nat.
  rewrite drop_0. simpl option_map. eexists. split; [reflexivity|].
  split.
  - intros Hm. rewrite <- Hm.
    rewrite <- (le_bytes_le_value (take 8 data)) at 1.
    rewrite length_take. f_equal. lia.
  - intros ->. reflexivity.
Qed.

(** C6. [unpack] throws the invalid-magic error when any byte of the magic
    field differs from MAGIC, in particular when the field holds the magic
    number with its bytes swapped; with the right magic number it throws
    the data-ends-before-it-starts error when [data_end < data_start]. *)
Theorem unpack_rejects_bad_header (data : list byte) :
  (8 <= length data)%nat ->
  (take 8 data <> le_bytes 8 MAGIC -> unpack data = Throws invalid_magic)
  /\ (take 8 data = swapped_magic_bytes -> unpack data = Throws invalid_magic)
  /\ (take 8 data = le_bytes 8 MAGIC ->
      forall h_data_start h_data_end,
        read_ulong data 8 = Some h_data_start ->
        read_ulong data 16 = Some h_data_end ->
        h_data_end < h_data_start ->
        unpack data = Throws data_ends_before_it_starts).
Proof.
  intros Hlen.
  destruct (read_magic_bytes data Hlen) as (m & Hm & Hiff).
  assert (Hbad : take 8 data <> le_bytes 8 MAGIC ->
                 unpack data = Throws invalid_magic).
  { intros Hne. unfold unpack. rewrite Hm.
    replace (m =? MAGIC) with false; [reflexivity|].
    symmetry. apply Z.eqb_neq. intros E. apply Hne, Hiff, E. }
  split; [exact Hbad|]. split.
  - intros Hsw. apply Hbad. rewrite Hsw. vm_compute. discriminate.
  - intros Hgood s e Hs He Hlt.
    apply Hiff in Hgood. subst m.
    unfold unpack. rewrite Hm, Z.eqb_refl. cbn [negb]. rewrite He, Hs.
    replace (e <? s) with true by (symmetry; apply Z.ltb_lt; lia).
    reflexivity.
Qed.

Lemma unpack_rejects_bad_header_witness :
  (8 <= length swapped_magic_stream)%nat
  /\ take 8 swapped_magic_stream = swapped_magic_bytes
  /\ unpack swapped_magic_stream = Throws invalid_magic
  /\ take 8 ends_before_start_stream = le_bytes 8 MAGIC
  /\ read_ulong ends_before_start_stream 8 = Some 128
  /\ read_ulong ends_before_start_stream 16 = Some 64
  /\ unpack ends_before_start_stream = Throws data_ends_before_it_starts.
Proof.
  assert (H1 : (8 <= length swapped_magic_stream)%nat) by (vm_compute; lia).
  assert (H2 : (8 <= length ends_before_start_stream)%nat) by (vm_compute; lia).
  assert (Hsw : take 8 swapped_magic_stream = swapped_magic_bytes)
    by reflexivity.
  assert (Hok : take 8 ends_before_start_stream = le_bytes 8 MAGIC)
    by reflexivity.
  assert (Hs : read_ulong ends_before_start_stream 8 = Some 128) by reflexivity.
  assert (He : read_ulong ends_before_start_stream 16 = Some 64) by reflexivity.
  split; [exact H1|]. split; [exact Hsw|].
  split; [exact (proj1 (proj2 (unpack_rejects_bad_header _ H1)) Hsw)|].
  split; [exact Hok|]. split; [exact Hs|]. split; [exact He|].
  exact (proj2 (proj2 (unpack_rejects_bad_header _ H2)) Hok 128 64 Hs He
           ltac:(lia)).
Defined.

End Unpacking.

(** * Further properties of the alignment arithmetic *)

Section AlignedValue.

(** X1. [aligned_value] returns an aligned value for every 64-bit input,
    wrap-around included (its own assertion), and applying it twice is
    applying it once. *)
Theorem aligned_value_is_aligned (n : Z) :
  is_aligned (aligned_value n) = true
  /\ aligned_value (aligned_value n) = aligned_value n.
Proof.
  pose proof (aligned_value_aligned n) as Ha. split; [exact Ha|].
  unfold aligned_value at 1. now rewrite Ha.
Qed.

(** X2. As long as the next multiple of 64 is below 2^64, [aligned_value n]
    is the smallest multiple of 64 that is not below [n]; an aligned [n] is
    returned as it is. *)
Theorem aligned_value_least (n : Z) :
  0 <= n <= 2 ^ 64 - 64 ->
  n <= aligned_value n < n + 64
  /\ aligned_value n mod 64 = 0
  /\ (forall m, n <= m -> m mod 64 = 0 -> aligned_value n <= m)
  /\ (n mod 64 = 0 -> aligned_value n = n).
Proof.
  intros Hn.
  pose proof (round_up_bounds n) as Hb.
  rewrite aligned_value_round_up by lia.
  split; [exact Hb|]. split; [apply round_up_mod|]. split.
  - intros m Hm Hmod. unfold round_up. Z.div_mod_to_equations. lia.
  - apply round_up_aligned.
Qed.

Lemma aligned_value_least_witness :
  0 <= 100 <= 2 ^ 64 - 64
  /\ 100 <= aligned_value 100 < 100 + 64
  /\ aligned_value 100 mod 64 = 0
  /\ (forall m, 100 <= m -> m mod 64 = 0 -> aligned_value 100 <= m)
  /\ (100 mod 64 = 0 -> aligned_value 100 = 100).
Proof.
  assert (H : 0 <= 100 <= 2 ^ 64 - 64) by lia.
  split; [exact H | exact (aligned_value_least 100 H)].
Defined.

(** X3. In the last 63 values of [size_t] the sum [n + alignment] wraps
    around and [aligned_value] returns 0, a value below its argument. *)
Theorem aligned_value_wraps (n : Z) :
  2 ^ 64 - 64 < n < 2 ^ 64 -> aligned_value n = 0.
Proof.
  intros Hn. unfold aligned_value.
  destruct (is_aligned n) eqn:E.
  - apply is_aligned_true in E. Z.div_mod_to_equations. lia.
  - unfold sub64, add64, to_ulong, alignment. Z.div_mod_to_equations. lia.
Qed.

Lemma aligned_value_wraps_witness :
  2 ^ 64 - 64 < 2 ^ 64 - 1 < 2 ^ 64 /\ aligned_value (2 ^ 64 - 1) = 0.
Proof.
  assert (H : 2 ^ 64 - 64 < 2 ^ 64 - 1 < 2 ^ 64) by lia.
  split; [exact H | exact (aligned_value_wraps (2 ^ 64 - 1) H)].
Defined.

End AlignedValue.

(** * Further properties of the offset table *)

Section OffsetTable.
Import BfastRawData.

(** X4. [compute_offsets] gives one offset per range, and every offset
    begins on a multiple of 64 and holds two values below 2^64, for every
    input (the assertions [is_aligned(n)] of its loop and
    [offsets.size() == ranges.size()] of [copy_to]). *)
Theorem compute_offsets_shape (ranges : list ByteRange) :
  length (compute_offsets ranges) = length ranges
  /\ forall o, o ∈ compute_offsets ranges ->
       is_aligned (_begin o) = true
       /\ 0 <= _begin o < 2 ^ 64 /\ 0 <= _end o < 2 ^ 64.
Proof.
  split; [apply compute_offsets_length|].
  intros o Ho. pose proof (compute_offsets_values ranges) as Hv.
  rewrite Forall_forall in Hv. destruct (Hv o Ho) as (Ha & Hb & He).
  split; [now apply is_aligned_true | tauto].
Qed.

Lemma compute_offsets_shape_witness :
  {| _begin := 192; _end := 194 |} ∈ compute_offsets two_arrays
  /\ is_aligned 192 = true /\ 0 <= 192 < 2 ^ 64 /\ 0 <= 194 < 2 ^ 64.
Proof.
  assert (H : {| _begin := 192; _end := 194 |} ∈ compute_offsets two_arrays)
    by (apply list_elem_of_further, list_elem_of_here).
  split; [exact H|].
  exact (proj2 (compute_offsets_shape two_arrays) _ H).
Defined.

Lemma offsets_from_lookup lengths : forall cursor i o L,
  Forall (fun L => 0 <= L) lengths -> 0 <= cursor ->
  layout_end cursor lengths < 2 ^ 64 ->
  offsets_from cursor lengths !! i = Some o ->
  lengths !! i = Some L ->
  cursor <= _begin o
  /\ _end o = _begin o + L
  /\ forall o', offsets_from cursor lengths !! S i = Some o' ->
       _end o <= _begin o' < _end o + 64 /\ _begin o' mod 64 = 0.
Proof.
  induction lengths as [|L0 rest IH]; intros cursor i o L HL Hc Hfit Ho HLi.
  - discriminate.
  - inversion HL as [|? ? HL0 HLrest]; subst.
    cbn [offsets_from layout_end] in *.
    pose proof (round_up_bounds (cursor + L0)) as Hb.
    pose proof (layout_end_ge rest (round_up (cursor + L0)) HLrest) as Hge.
    rewrite aligned_value_round_up in * by lia.
    destruct i as [|i].
    + injection Ho as <-. injection HLi as <-. cbn [_begin _end].
      split; [lia|]. split; [reflexivity|].
      intros o' Ho'. destruct rest as [|L1 rest]; [discriminate|].
      cbn [offsets_from] in Ho'. injection Ho' as <-. cbn [_begin].
      split; [lia | apply round_up_mod].
    + cbn [lookup list_lookup] in Ho, HLi.
      destruct (IH (round_up (cursor + L0)) i o L HLrest ltac:(lia) Hfit Ho HLi)
        as (H1 & H2 & H3).
      split; [lia|]. split; [exact H2|]. exact H3.
Qed.

Lemma offsets_follow_one_another (ranges : list ByteRange) i o range :
  fits ranges ->
  compute_offsets ranges !! i = Some o ->
  ranges !! i = Some range ->
  compute_data_start ranges <= _begin o
  /\ _end o = _begin o + size range
  /\ forall o', compute_offsets ranges !! S i = Some o' ->
       _end o <= _begin o' < _end o + 64 /\ _begin o' mod 64 = 0.
Proof.
  intros Hfit Ho Hr.
  pose proof (compute_data_start_fits ranges Hfit) as Hds.
  pose proof (round_up_bounds (64 + 16 * Z.of_nat (length ranges))) as Hb.
  rewrite compute_offsets_fits in * by assumption.
  apply (offsets_from_lookup (map size ranges) _ i o (size range));
    [apply sizes_nonneg | lia | rewrite Hds; exact Hfit | exact Ho |].
  rewrite list_lookup_fmap, Hr. reflexivity.
Qed.

(** X5. For a layout below 2^64 the offsets follow one another without
    overlap: an offset ends its range's size behind its begin, and the next
    offset begins on the first multiple of 64 at or behind that end. *)
Theorem compute_offsets_increasing (ranges : list ByteRange) i o range :
  fits ranges ->
  compute_offsets ranges !! i = Some o ->
  ranges !! i = Some range ->
  compute_data_start ranges <= _begin o
  /\ _end o = _begin o + size range
  /\ forall o', compute_offsets ranges !! S i = Some o' ->
       _end o <= _begin o' < _end o + 64 /\ _begin o' mod 64 = 0.
Proof.
  intros Hfit Ho Hr.
  pose proof (compute_data_start_fits ranges Hfit) as Hds.
  pose proof (round_up_bounds (64 + 16 * Z.of_nat (length ranges))) as Hb.
  rewrite compute_offsets_fits in * by assumption.
  apply (offsets_from_lookup (map size ranges) _ i o (size range));
    [apply sizes_nonneg | lia | rewrite Hds; exact Hfit | exact Ho |].
  rewrite list_lookup_fmap, Hr. reflexivity.
Qed.

Lemma compute_offsets_increasing_witness :
  fits two_arrays
  /\ compute_data_start two_arrays <= 128
  /\ 129 = 128 + size [x01]
  /\ forall o', compute_offsets two_arrays !! 1%nat = Some o' ->
       129 <= _begin o' < 129 + 64 /\ _begin o' mod 64 = 0.
Proof.
  assert (Hfit : fits two_arrays) by reflexivity.
  split; [exact Hfit|].
  exact (compute_offsets_increasing two_arrays 0
           {| _begin := 128; _end := 129 |} [x01] Hfit eq_refl eq_refl).
Defined.

Lemma layout_room (ranges : list ByteRange) :
  fits ranges ->
  64 + 16 * Z.of_nat (length ranges) <= compute_data_start ranges
  /\ compute_data_start ranges < 64 + 16 * Z.of_nat (length ranges) + 64
  /\ compute_data_start ranges <= compute_needed_size ranges
  /\ compute_needed_size ranges < 2 ^ 64.
Proof.
  intros Hfit.
  pose proof (compute_data_start_fits ranges Hfit) as Hds.
  pose proof (round_up_bounds (64 + 16 * Z.of_nat (length ranges))) as Hb.
  split; [lia|]. split; [lia|].
  unfold compute_needed_size. rewrite compute_offsets_length.
  destruct (length ranges =? 0)%nat eqn:En.
  - pose proof (compute_data_start_range ranges). lia.
  - destruct (last (compute_offsets ranges)) as [o|] eqn:El.
    + apply last_Some_elem_of in El.
      pose proof (compute_offsets_values ranges) as Hv.
      rewrite Forall_forall in Hv. pose proof (Hv o El) as (_ & _ & He).
      rewrite compute_offsets_fits in El by assumption.
      apply offsets_from_bounds in El;
        [ | apply sizes_nonneg | lia | rewrite Hds; exact Hfit].
      simpl. lia.
    + apply last_None in El. apply (f_equal length) in El.
      rewrite compute_offsets_length in El. apply Nat.eqb_neq in En.
      simpl in El. lia.
Qed.

(** X6. For a layout below 2^64 the data starts behind the offset table, at
    most 63 bytes behind it, and the size [compute_needed_size] asks for
    reaches at least to where the data starts. *)
Theorem compute_needed_size_room (ranges : list ByteRange) :
  fits ranges ->
  64 + 16 * Z.of_nat (length ranges) <= compute_data_start ranges
  /\ compute_data_start ranges < 64 + 16 * Z.of_nat (length ranges) + 64
  /\ compute_data_start ranges <= compute_needed_size ranges
  /\ compute_needed_size ranges < 2 ^ 64.
Proof.
  intros Hfit.
  pose proof (compute_data_start_fits ranges Hfit) as Hds.
  pose proof (round_up_bounds (64 + 16 * Z.of_nat (length ranges))) as Hb.
  split; [lia|]. split; [lia|].
  unfold compute_needed_size. rewrite compute_offsets_length.
  destruct (length ranges =? 0)%nat eqn:En.
  - pose proof (compute_data_start_range ranges). lia.
  - destruct (last (compute_offsets ranges)) as [o|] eqn:El.
    + apply last_Some_elem_of in El.
      pose proof (compute_offsets_values ranges) as Hv.
      rewrite Forall_forall in Hv. pose proof (Hv o El) as (_ & _ & He).
      rewrite compute_offsets_fits in El by assumption.
      apply offsets_from_bounds in El;
        [ | apply sizes_nonneg | lia | rewrite Hds; exact Hfit].
      simpl. lia.
    + apply last_None in El. apply (f_equal length) in El.
      rewrite compute_offsets_length in El. apply Nat.eqb_neq in En.
      simpl in El. lia.
Qed.

Lemma compute_needed_size_room_witness :
  fits two_arrays
  /\ 64 + 16 * Z.of_nat (length two_arrays) <= compute_data_start two_arrays
  /\ compute_data_start two_arrays < 64 + 16 * Z.of_nat (length two_arrays) + 64
  /\ compute_data_start two_arrays <= compute_needed_size two_arrays
  /\ compute_needed_size two_arrays < 2 ^ 64.
Proof.
  assert (Hfit : fits two_arrays) by reflexivity.
  split; [exact Hfit | exact (compute_needed_size_room two_arrays Hfit)].
Defined.

End OffsetTable.

(** * Further properties of the packed stream *)

Section PackedHeader.
Import BfastRawData BfastRawDataWriter BfastRawDataReader.

Lemma make_header_values ranges :
  fits ranges -> ranges <> [] ->
  data_start (make_header (compute_offsets ranges)) = compute_data_start ranges
  /\ data_end (make_header (compute_offsets ranges)) = compute_needed_size ranges
  /\ num_arrays (make_header (compute_offsets ranges)) = Z.of_nat (length ranges).
Proof.
  intros Hfit Hne. unfold make_header, compute_needed_size.
  cbn [data_start data_end num_arrays].
  rewrite compute_offsets_length.
  destruct ranges as [|range rest]; [congruence|].
  cbn [length Nat.eqb]. split; [|split; reflexivity].
  rewrite compute_offsets_fits by assumption. reflexivity.
Qed.

Lemma pack_stored_header ranges :
  fits ranges ->
  stored (pack_vector ranges) 0 (le_bytes 8 MAGIC)
  /\ stored (pack_vector ranges) 8
       (le_bytes 8 (data_start (make_header (compute_offsets ranges))))
  /\ stored (pack_vector ranges) 16
       (le_bytes 8 (data_end (make_header (compute_offsets ranges))))
  /\ stored (pack_vector ranges) 24
       (le_bytes 8 (num_arrays (make_header (compute_offsets ranges)))).
Proof.
  intros Hfit. destruct (pack_stored ranges Hfit) as [Hhead _].
  cbn [object_bytes Header_Layout] in Hhead.
  apply stored_app in Hhead. destruct Hhead as [H0 Hhead].
  apply stored_app in Hhead. destruct Hhead as [H8 Hhead].
  apply stored_app in Hhead. destruct Hhead as [H16 H24].
  rewrite !le_bytes_length in *. auto.
Qed.

Lemma pack_read_header (ranges : list ByteRange) :
  fits ranges -> ranges <> [] ->
  read_ulong (pack_vector ranges) 0 = Some MAGIC
  /\ read_ulong (pack_vector ranges) 8 = Some (compute_data_start ranges)
  /\ read_ulong (pack_vector ranges) 16 = Some (Z.of_nat (length (pack_vector ranges)))
  /\ read_ulong (pack_vector ranges) 24 = Some (Z.of_nat (length ranges)).
Proof.
  intros Hfit Hne.
  destruct (pack_stored_header ranges Hfit) as (H0 & H8 & H16 & H24).
  destruct (make_header_values ranges Hfit Hne) as (Es & Ee & En).
  rewrite Es in H8. rewrite Ee in H16. rewrite En in H24.
  pose proof (layout_room ranges Hfit) as (R1 & R2 & R3 & R4).
  pose proof (compute_needed_size_nonneg ranges) as Hnn.
  rewrite pack_length.
  split; [apply (read_ulong_stored _ 0); [vm_compute; split; congruence | exact H0]|].
  split; [apply (read_ulong_stored _ 8); [lia | exact H8]|].
  split; [apply (read_ulong_stored _ 16); [lia | exact H16]|].
  apply (read_ulong_stored _ 24); [lia | exact H24].
Qed.

(** X7. The header of a stream [pack] returns, read back field by field:
    the magic number, where the data starts, the length of the whole stream
    as [data_end], and the number of ranges.  (For at least one range, a
    layout below 2^64, and a call of [pack] that wrote nothing outside its
    vector.) *)
Theorem pack_header_fields (ranges : list ByteRange) (stream : list byte) :
  fits ranges -> ranges <> [] ->
  pack ranges = Returns stream ->
  read_ulong stream 0 = Some MAGIC
  /\ read_ulong stream 8 = Some (compute_data_start ranges)
  /\ read_ulong stream 16 = Some (Z.of_nat (length stream))
  /\ read_ulong stream 24 = Some (Z.of_nat (length ranges)).
Proof.
  intros Hfit Hne Hret.
  apply pack_returns in Hret. destruct Hret as [_ ->].
  destruct (pack_stored_header ranges Hfit) as (H0 & H8 & H16 & H24).
  destruct (make_header_values ranges Hfit Hne) as (Es & Ee & En).
  rewrite Es in H8. rewrite Ee in H16. rewrite En in H24.
  pose proof (layout_room ranges Hfit) as (R1 & R2 & R3 & R4).
  pose proof (compute_needed_size_nonneg ranges) as Hnn.
  rewrite pack_length.
  split; [apply (read_ulong_stored _ 0); [vm_compute; split; congruence | exact H0]|].
  split; [apply (read_ulong_stored _ 8); [lia | exact H8]|].
  split; [apply (read_ulong_stored _ 16); [lia | exact H16]|].
  apply (read_ulong_stored _ 24); [lia | exact H24].
Qed.

Lemma pack_header_fields_witness :
  fits two_arrays /\ two_arrays <> []
  /\ pack two_arrays = Returns (pack_vector two_arrays)
  /\ read_ulong (pack_vector two_arrays) 0 = Some MAGIC
  /\ read_ulong (pack_vector two_arrays) 8 = Some (compute_data_start two_arrays)
  /\ read_ulong (pack_vector two_arrays) 16 = Some (Z.of_nat (length (pack_vector two_arrays)))
  /\ read_ulong (pack_vector two_arrays) 24 = Some (Z.of_nat (length two_arrays)).
Proof.
  assert (Hfit : fits two_arrays) by reflexivity.
  assert (Hne : two_arrays <> []) by discriminate.
  assert (Hret : pack two_arrays = Returns (pack_vector two_arrays))
    by (apply pack_inside; vm_compute; reflexivity).
  split; [exact Hfit|]. split; [exact Hne|]. split; [exact Hret|].
  exact (pack_header_fields two_arrays _ Hfit Hne Hret).
Defined.

Lemma unpack_pack_table (ranges : list ByteRange) :
  fits ranges ->
  unpack (pack_vector ranges) = Returns (map range_of (compute_offsets ranges)).
Proof.
  intros Hfit.
  destruct ranges as [|range0 rest0] eqn:Eranges.
  { vm_compute. reflexivity. }
  rewrite <- Eranges in *.
  assert (Hne : ranges <> []) by (subst; discriminate). clear Eranges.
  destruct (pack_read_header ranges Hfit Hne) as (H0 & H8 & H16 & H24).
  pose proof (layout_room ranges Hfit) as (R1 & R2 & R3 & R4).
  pose proof (pack_length ranges) as Hlen.
  unfold unpack. rewrite H0, Z.eqb_refl. cbn [negb]. rewrite H16, H8.
  replace (Z.of_nat (length (pack_vector ranges)) <? compute_data_start ranges)
    with false by (symmetry; apply Z.ltb_ge; lia).
  rewrite H24, Nat2Z.id.
  destruct (read_ranges_spec (pack_vector ranges) (length ranges) 0)
    as (rs & Hrs & Hl & Hk); [lia | lia |].
  rewrite Hrs. f_equal. apply list_eq. intros i.
  rewrite list_lookup_fmap.
  destruct (Nat.lt_ge_cases i (length ranges)) as [Hi|Hi].
  - destruct (Hk i Hi) as (o & Ho & Hri). rewrite Hri.
    pose proof Hi as Hi'. rewrite <- compute_offsets_length in Hi'.
    destruct (lookup_lt_is_Some_2 _ _ Hi') as [o' Ho'].
    rewrite Ho'. cbn [fmap option_fmap option_map].
    rewrite Z.add_0_l, (pack_read_offset ranges i o' Hfit Ho') in Ho.
    now injection Ho as ->.
  - rewrite (lookup_ge_None_2 rs) by lia.
    rewrite (lookup_ge_None_2 (compute_offsets ranges))
      by (rewrite compute_offsets_length; lia).
    reflexivity.
Qed.

(** X8. [unpack] accepts every stream [pack] returns and returns, in
    order, exactly the ranges of the offset table [compute_offsets] built:
    as many ranges as were packed, each with the begin and end of its
    offset.  (For a layout below 2^64 and a call of [pack] that wrote
    nothing outside its vector.) *)
Theorem unpack_pack_offsets (ranges : list ByteRange) (stream : list byte) :
  fits ranges ->
  pack ranges = Returns stream ->
  unpack stream = Returns (map range_of (compute_offsets ranges)).
Proof.
  intros Hfit Hret.
  apply pack_returns in Hret. destruct Hret as [_ ->].
  destruct ranges as [|range0 rest0] eqn:Eranges.
  { vm_compute. reflexivity. }
  rewrite <- Eranges in *.
  assert (Hne : ranges <> []) by (subst; discriminate). clear Eranges.
  destruct (pack_read_header ranges Hfit Hne) as (H0 & H8 & H16 & H24).
  pose proof (layout_room ranges Hfit) as (R1 & R2 & R3 & R4).
  pose proof (pack_length ranges) as Hlen.
  unfold unpack. rewrite H0, Z.eqb_refl. cbn [negb]. rewrite H16, H8.
  replace (Z.of_nat (length (pack_vector ranges)) <? compute_data_start ranges)
    with false by (symmetry; apply Z.ltb_ge; lia).
  rewrite H24, Nat2Z.id.
  destruct (read_ranges_spec (pack_vector ranges) (length ranges) 0)
    as (rs & Hrs & Hl & Hk); [lia | lia |].
  rewrite Hrs. f_equal. apply list_eq. intros i.
  rewrite list_lookup_fmap.
  destruct (Nat.lt_ge_cases i (length ranges)) as [Hi|Hi].
  - destruct (Hk i Hi) as (o & Ho & Hri). rewrite Hri.
    pose proof Hi as Hi'. rewrite <- compute_offsets_length in Hi'.
    destruct (lookup_lt_is_Some_2 _ _ Hi') as [o' Ho'].
    rewrite Ho'. cbn [fmap option_fmap option_map].
    rewrite Z.add_0_l, (pack_read_offset ranges i o' Hfit Ho') in Ho.
    now injection Ho as ->.
  - rewrite (lookup_ge_None_2 rs) by lia.
    rewrite (lookup_ge_None_2 (compute_offsets ranges))
      by (rewrite compute_offsets_length; lia).
    reflexivity.
Qed.

Lemma unpack_pack_offsets_witness :
  fits two_arrays
  /\ pack two_arrays = Returns (pack_vector two_arrays)
  /\ unpack (pack_vector two_arrays)
     = Returns (map range_of (compute_offsets two_arrays)).
Proof.
  assert (Hfit : fits two_arrays) by reflexivity.
  assert (Hret : pack two_arrays = Returns (pack_vector two_arrays))
    by (apply pack_inside; vm_compute; reflexivity).
  split; [exact Hfit|]. split; [exact Hret|].
  exact (unpack_pack_offsets two_arrays _ Hfit Hret).
Defined.

End PackedHeader.

(** * Where the arrays of a packed stream are *)

Section PackedArrays.
Import BfastRawData BfastRawDataWriter BfastRawDataReader.

Lemma slice_stored_room (m : list byte) pos bs :
  (pos + length bs <= length m)%nat -> stored m pos bs ->
  slice m (Z.of_nat pos) (Z.of_nat (length bs)) = Some bs.
Proof.
  intros Hlen Hst. rewrite slice_Some by lia.
  rewrite !Nat2Z.id. f_equal. apply list_eq. intros j.
  destruct (Nat.lt_ge_cases j (length bs)) as [Hj|Hj].
  - rewrite lookup_take_lt, lookup_drop by assumption. now apply Hst.
  - rewrite lookup_take_ge by assumption.
    symmetry. now apply lookup_ge_None_2.
Qed.

(** The vector has room for the arrays put one right behind the other. *)
Lemma arrays_room ranges :
  fits ranges ->
  compute_data_start ranges + Z.of_nat (length (concat ranges))
  <= compute_needed_size ranges.
Proof.
  intros Hfit.
  pose proof (layout_room ranges Hfit) as (R1 & R2 & R3 & R4).
  pose proof (compute_data_start_fits ranges Hfit) as Hds.
  unfold compute_needed_size in *. rewrite compute_offsets_length in *.
  destruct (length ranges =? 0)%nat eqn:En.
  - apply Nat.eqb_eq in En. destruct ranges; [simpl; lia | discriminate].
  - destruct (last (compute_offsets ranges)) as [o|] eqn:El.
    + rewrite compute_offsets_fits in El by assumption.
      apply offsets_from_last_end in El;
        [ | apply sizes_nonneg | lia | rewrite Hds; exact Hfit].
      rewrite concat_length_sizes. simpl. lia.
    + apply last_None in El. apply (f_equal length) in El.
      rewrite compute_offsets_length in El. apply Nat.eqb_neq in En.
      simpl in El. lia.
Qed.

Lemma pack_array_at (ranges : list ByteRange) i range :
  fits ranges ->
  ranges !! i = Some range ->
  slice (pack_vector ranges)
    (compute_data_start ranges + Z.of_nat (length (concat (take i ranges))))
    (size range)
  = Some range.
Proof.
  intros Hfit Hi.
  pose proof (pack_arrays_contiguous ranges Hfit) as Hst.
  pose proof (arrays_room ranges Hfit) as Hroom.
  pose proof (compute_data_start_range ranges) as Hds.
  pose proof (pack_length ranges) as Hlen.
  assert (E : concat ranges
              = concat (take i ranges) ++ range ++ concat (drop (S i) ranges)).
  { rewrite <- (take_drop_middle ranges i range Hi) at 1.
    rewrite concat_app. reflexivity. }
  rewrite E in Hst, Hroom. rewrite !length_app in Hroom.
  apply stored_app in Hst. destruct Hst as [_ Hst].
  apply stored_app in Hst. destruct Hst as [Hst _].
  replace (compute_data_start ranges + Z.of_nat (length (concat (take i ranges))))
    with (Z.of_nat (Z.to_nat (compute_data_start ranges)
                    + length (concat (take i ranges)))) by lia.
  apply slice_stored_room; [lia | exact Hst].
Qed.

(** X9. In a stream [pack] returns the arrays stand one right behind the
    other from [compute_data_start()] on: array [i] is found at the data
    start plus the sizes of the arrays before it, with no padding in
    between.  (For a layout below 2^64 and a call of [pack] that wrote
    nothing outside its vector.) *)
Theorem pack_arrays_back_to_back
  (ranges : list ByteRange) (stream : list byte) i range :
  fits ranges ->
  pack ranges = Returns stream ->
  ranges !! i = Some range ->
  slice stream
    (compute_data_start ranges + Z.of_nat (length (concat (take i ranges))))
    (size range)
  = Some range.
Proof.
  intros Hfit Hret Hi.
  apply pack_returns in Hret. destruct Hret as [_ ->].
  pose proof (pack_arrays_contiguous ranges Hfit) as Hst.
  pose proof (arrays_room ranges Hfit) as Hroom.
  pose proof (compute_data_start_range ranges) as Hds.
  pose proof (pack_length ranges) as Hlen.
  assert (E : concat ranges
              = concat (take i ranges) ++ range ++ concat (drop (S i) ranges)).
  { rewrite <- (take_drop_middle ranges i range Hi) at 1.
    rewrite concat_app. reflexivity. }
  rewrite E in Hst, Hroom. rewrite !length_app in Hroom.
  apply stored_app in Hst. destruct Hst as [_ Hst].
  apply stored_app in Hst. destruct Hst as [Hst _].
  replace (compute_data_start ranges + Z.of_nat (length (concat (take i ranges))))
    with (Z.of_nat (Z.to_nat (compute_data_start ranges)
                    + length (concat (take i ranges)))) by lia.
  apply slice_stored_room; [lia | exact Hst].
Qed.

Lemma pack_arrays_back_to_back_witness :
  fits two_arrays
  /\ pack two_arrays = Returns (pack_vector two_arrays)
  /\ slice (pack_vector two_arrays)
       (compute_data_start two_arrays
        + Z.of_nat (length (concat (take 1 two_arrays))))
       (size [x02; x03])
     = Some [x02; x03].
Proof.
  assert (Hfit : fits two_arrays) by reflexivity.
  assert (Hret : pack two_arrays = Returns (pack_vector two_arrays))
    by (apply pack_inside; vm_compute; reflexivity).
  split; [exact Hfit|]. split; [exact Hret|].
  exact (pack_arrays_back_to_back two_arrays _ 1 [x02; x03] Hfit Hret eq_refl).
Defined.

Lemma offsets_from_aligned_prefix lengths : forall cursor i o,
  cursor mod 64 = 0 ->
  (forall j L, (j < i)%nat -> lengths !! j = Some L -> L mod 64 = 0) ->
  offsets_from cursor lengths !! i = Some o ->
  _begin o = cursor + foldr Z.add 0 (take i lengths).
Proof.
  induction lengths as [|L0 rest IH]; intros cursor i o Hc Hal Ho.
  - discriminate.
  - destruct i as [|i].
    + injection Ho as <-. simpl. lia.
    + cbn [offsets_from lookup list_lookup] in Ho.
      assert (HL0 : L0 mod 64 = 0) by (apply (Hal 0%nat); [lia | reflexivity]).
      assert (Hsum : (cursor + L0) mod 64 = 0).
      { rewrite Zplus_mod, Hc, HL0. reflexivity. }
      assert (Hav : aligned_value (cursor + L0) = cursor + L0).
      { unfold aligned_value.
        now replace (is_aligned (cursor + L0)) with true
          by (symmetry; apply is_aligned_true; exact Hsum). }
      rewrite Hav in Ho. apply IH in Ho; [|exact Hsum|].
      * rewrite Ho. cbn [take foldr]. lia.
      * intros j L Hj HL. apply (Hal (S j)); [lia | exact HL].
Qed.

Lemma pack_range_intact (ranges : list ByteRange) i o range :
  fits ranges ->
  (forall j r, (j < i)%nat -> ranges !! j = Some r -> size r mod 64 = 0) ->
  compute_offsets ranges !! i = Some o ->
  ranges !! i = Some range ->
  range_bytes (pack_vector ranges) (range_of o) = Some range.
Proof.
  intros Hfit Hal Ho Hr.
  destruct (offsets_follow_one_another ranges i o range Hfit Ho Hr)
    as (_ & Hend & _).
  rewrite compute_offsets_fits in Ho by assumption.
  apply offsets_from_aligned_prefix in Ho.
  - unfold range_bytes, range_of. cbn [range_begin range_end].
    rewrite Hend, Ho.
    replace (compute_data_start ranges
             + foldr Z.add 0 (take i (map size ranges)) + size range
             - (compute_data_start ranges
                + foldr Z.add 0 (take i (map size ranges))))
      with (size range) by lia.
    rewrite <- fmap_take, <- concat_length_sizes.
    now apply pack_array_at.
  - apply compute_data_start_aligned.
  - intros j L Hj HL. rewrite list_lookup_fmap in HL.
    destruct (ranges !! j) as [r|] eqn:Er; [|discriminate].
    injection HL as <-. now apply (Hal j).
Qed.

(** X10. An array is read back intact from a stream [pack] returns when
    the sizes of all arrays before it are multiples of 64; the first array
    always is.  (For a layout below 2^64 and a call of [pack] that wrote
    nothing outside its vector.) *)
Theorem unpack_pack_aligned_prefix
  (ranges : list ByteRange) (stream : list byte) i o range :
  fits ranges ->
  pack ranges = Returns stream ->
  (forall j r, (j < i)%nat -> ranges !! j = Some r -> size r mod 64 = 0) ->
  compute_offsets ranges !! i = Some o ->
  ranges !! i = Some range ->
  range_bytes stream (range_of o) = Some range.
Proof.
  intros Hfit Hret Hal Ho Hr.
  apply pack_returns in Hret. destruct Hret as [_ ->].
  destruct (offsets_follow_one_another ranges i o range Hfit Ho Hr)
    as (_ & Hend & _).
  rewrite compute_offsets_fits in Ho by assumption.
  apply offsets_from_aligned_prefix in Ho.
  - unfold range_bytes, range_of. cbn [range_begin range_end].
    rewrite Hend, Ho.
    replace (compute_data_start ranges
             + foldr Z.add 0 (take i (map size ranges)) + size range
             - (compute_data_start ranges
                + foldr Z.add 0 (take i (map size ranges))))
      with (size range) by lia.
    rewrite <- fmap_take, <- concat_length_sizes.
    now apply pack_array_at.
  - apply compute_data_start_aligned.
  - intros j L Hj HL. rewrite list_lookup_fmap in HL.
    destruct (ranges !! j) as [r|] eqn:Er; [|discriminate].
    injection HL as <-. now apply (Hal j).
Qed.

Lemma unpack_pack_aligned_prefix_witness :
  fits three_arrays
  /\ pack three_arrays = Returns (pack_vector three_arrays)
  /\ (forall j r, (j < 1)%nat -> three_arrays !! j = Some r ->
        size r mod 64 = 0)
  /\ compute_offsets three_arrays !! 1%nat
     = Some {| _begin := 192; _end := 193 |}
  /\ range_bytes (pack_vector three_arrays)
       (range_of {| _begin := 192; _end := 193 |}) = Some [x02].
Proof.
  assert (Hfit : fits three_arrays) by reflexivity.
  assert (Hret : pack three_arrays = Returns (pack_vector three_arrays))
    by (apply pack_inside; vm_compute; reflexivity).
  assert (Hal : forall j r, (j < 1)%nat -> three_arrays !! j = Some r ->
                  size r mod 64 = 0).
  { intros j r Hj Hr. destruct j as [|j]; [|lia].
    injection Hr as <-. reflexivity. }
  assert (Ho : compute_offsets three_arrays !! 1%nat
               = Some {| _begin := 192; _end := 193 |}) by reflexivity.
  split; [exact Hfit|]. split; [exact Hret|]. split; [exact Hal|].
  split; [exact Ho|].
  exact (unpack_pack_aligned_prefix three_arrays _ 1 _ [x02]
           Hfit Hret Hal Ho eq_refl).
Defined.

End PackedArrays.

(** * Writes inside and outside the vector *)

Section Overrun.
Import BfastRawData BfastRawDataWriter.

Lemma poke_overrun_inside out b s :
  (out < length (mem s))%nat -> overrun (snd (poke out b s)) = overrun s.
Proof.
  intros H. unfold poke. cbn [snd].
  apply Nat.ltb_lt in H. now rewrite H.
Qed.

Lemma poke_overrun_outside out b s :
  (length (mem s) <= out)%nat -> overrun (snd (poke out b s)) = true.
Proof.
  intros H. unfold poke. cbn [snd].
  apply Nat.ltb_ge in H. now rewrite H.
Qed.

Lemma poke_overrun_kept out b s :
  overrun s = true -> overrun (snd (poke out b s)) = true.
Proof.
  intros H. unfold poke. cbn [snd].
  now destruct (out <? length (mem s))%nat.
Qed.

Lemma copy_overrun_inside src : forall out s,
  (out + length src <= length (mem s))%nat ->
  overrun (snd (copy src out s)) = overrun s.
Proof.
  induction src as [|b src IH]; intros out s Hroom; [reflexivity|].
  cbn [copy]. rewrite bind_run. cbn [length] in Hroom.
  rewrite IH.
  - apply poke_overrun_inside. lia.
  - destruct (poke_stable out out b s (le_n _)) as [Hl _]. rewrite Hl. lia.
Qed.

Lemma output_padding_loop_overrun_kept fuel : forall out s,
  overrun s = true -> overrun (snd (output_padding_loop fuel out s)) = true.
Proof.
  induction fuel as [|fuel IH]; intros out s H; [exact H|].
  cbn [output_padding_loop]. rewrite bind_run. cbn [get_current fst snd].
  destruct (is_aligned (to_ulong (current s))); [exact H|].
  rewrite !bind_run. apply IH. cbn [set_current snd overrun].
  now apply poke_overrun_kept.
Qed.

(** The zero bytes of [output_padding], when the vector has room for them. *)
Lemma output_padding_loop_zeros fuel : forall out s,
  (padding_count (current s) <= fuel)%nat ->
  (out + padding_count (current s) <= length (mem s))%nat ->
  stored (mem (snd (output_padding_loop fuel out s))) out
    (replicate (padding_count (current s)) x00)
  /\ overrun (snd (output_padding_loop fuel out s)) = overrun s.
Proof.
  induction fuel as [|fuel IH]; intros out s Hfuel Hroom.
  - replace (padding_count (current s)) with 0%nat by lia.
    split; [|reflexivity]. intros j Hj. simpl in Hj. lia.
  - pose proof (output_padding_loop_spec (S fuel) out s) as (_ & _ & Hsp).
    cbn [output_padding_loop] in *. rewrite bind_run in *.
    cbn [get_current fst snd] in *.
    destruct (is_aligned (to_ulong (current s))) eqn:E.
    + apply is_aligned_true in E. rewrite to_ulong_mod_64 in E.
      rewrite padding_count_aligned by exact E.
      split; [|reflexivity]. intros j Hj. simpl in Hj. lia.
    + apply is_aligned_false in E. rewrite to_ulong_mod_64 in E.
      rewrite (padding_count_step _ E) in *.
      rewrite !bind_run in *.
      set (s1 := snd (poke out x00 s)) in *.
      set (s2 := snd (set_current (to_int (current s + 1)) s1)) in *.
      assert (Hc2 : current s2 = to_int (current s + 1)) by reflexivity.
      assert (Hm2 : mem s2 = <[out := x00]> (mem s)).
      { unfold s2. cbn [set_current snd mem]. apply poke_mem. }
      assert (Hl2 : length (mem s2) = length (mem s)).
      { rewrite Hm2. apply length_insert. }
      destruct (IH (S out) s2) as (Hz & Ho).
      { rewrite Hc2. lia. }
      { rewrite Hc2, Hl2. lia. }
      rewrite Hc2 in Hz.
      destruct (output_padding_loop_spec fuel (S out) s2) as ([_ Hst] & _ & _).
      split.
      * intros j Hj. cbn [replicate length] in Hj.
        rewrite length_replicate in Hj. destruct j as [|j].
        { rewrite Nat.add_0_r, Hst, Hm2 by lia. cbn [replicate].
          apply list_lookup_insert_eq. lia. }
        { replace (out + S j)%nat with (S out + j)%nat by lia.
          cbn [replicate]. apply Hz. rewrite length_replicate. lia. }
      * rewrite Ho. unfold s2. cbn [set_current snd overrun].
        apply poke_overrun_inside. lia.
Qed.

Lemma output_padding_zeros (out : nat) (s : store) :
  (out + padding_count (current s) <= length (mem s))%nat ->
  fst (output_padding out s) = (out + padding_count (current s))%nat
  /\ (padding_count (current s) < 64)%nat
  /\ stored (mem (snd (output_padding out s))) out
       (replicate (padding_count (current s)) x00)
  /\ (forall i, (i < out)%nat ->
        mem (snd (output_padding out s)) !! i = mem s !! i)
  /\ length (mem (snd (output_padding out s))) = length (mem s)
  /\ is_aligned (to_ulong (current (snd (output_padding out s)))) = true
  /\ overrun (snd (output_padding out s)) = overrun s.
Proof.
  intros Hroom.
  destruct (output_padding_spec out s) as ([Hl Hst] & Hf & Ha).
  destruct (output_padding_loop_zeros (Z.to_nat alignment) out s
              (padding_count_bound _) Hroom) as (Hz & Ho).
  split; [exact Hf|]. split.
  { unfold padding_count.
    pose proof (Z.mod_pos_bound (- current s) 64 ltac:(lia)). lia. }
  split; [exact Hz|]. split; [exact Hst|]. split; [exact Hl|].
  split; [exact Ha | exact Ho].
Qed.

(** X11. When the vector has room for them, [output_padding] writes
    exactly the zero bytes that bring [current] to the next multiple of 64,
    fewer than 64 of them, from [out] on; it returns the position behind
    them, leaves [current] aligned (the assertion that follows each call)
    and changes no byte before [out]. *)
Theorem output_padding_writes_zeros (out : nat) (s : store) :
  (out + padding_count (current s) <= length (mem s))%nat ->
  fst (output_padding out s) = (out + padding_count (current s))%nat
  /\ (padding_count (current s) < 64)%nat
  /\ stored (mem (snd (output_padding out s))) out
       (replicate (padding_count (current s)) x00)
  /\ (forall i, (i < out)%nat ->
        mem (snd (output_padding out s)) !! i = mem s !! i)
  /\ length (mem (snd (output_padding out s))) = length (mem s)
  /\ is_aligned (to_ulong (current (snd (output_padding out s)))) = true
  /\ overrun (snd (output_padding out s)) = overrun s.
Proof.
  intros Hroom.
  destruct (output_padding_spec out s) as ([Hl Hst] & Hf & Ha).
  destruct (output_padding_loop_zeros (Z.to_nat alignment) out s
              (padding_count_bound _) Hroom) as (Hz & Ho).
  split; [exact Hf|]. split.
  { unfold padding_count.
    pose proof (Z.mod_pos_bound (- current s) 64 ltac:(lia)). lia. }
  split; [exact Hz|]. split; [exact Hst|]. split; [exact Hl|].
  split; [exact Ha | exact Ho].
Qed.

Lemma output_padding_writes_zeros_witness :
  (2 + padding_count 62 <= length (replicate 8 xff))%nat
  /\ fst (output_padding 2
            {| mem := replicate 8 xff; current := 62; overrun := false |})
     = (2 + padding_count 62)%nat
  /\ (padding_count 62 < 64)%nat
  /\ stored
       (mem (snd (output_padding 2
                    {| mem := replicate 8 xff; current := 62;
                       overrun := false |})))
       2 (replicate (padding_count 62) x00).
Proof.
  assert (H : (2 + padding_count 62 <= length (replicate 8 xff))%nat)
    by (vm_compute; lia).
  split; [exact H|].
  destruct (output_padding_writes_zeros 2
              {| mem := replicate 8 xff; current := 62; overrun := false |} H)
    as (H1 & H2 & H3 & _).
  split; [exact H1|]. split; [exact H2 | exact H3].
Defined.

End Overrun.

(** * The padding behind the last array *)

Section LastPadding.
Import BfastRawData BfastRawDataWriter.

Lemma copy_to_object_overrun {T} `{Layout T} (x : T) out s :
  (out + length (object_bytes x) <= length (mem s))%nat ->
  overrun (snd (copy_to_object x out s)) = overrun s.
Proof.
  intros Hroom. unfold copy_to_object. rewrite bind_run.
  now rewrite copy_overrun_inside.
Qed.

Lemma copy_offsets_overrun offsets : forall out s,
  (out + 16 * length offsets <= length (mem s))%nat ->
  overrun (snd (copy_offsets offsets out s)) = overrun s.
Proof.
  induction offsets as [|o rest IH]; intros out s Hroom; [reflexivity|].
  cbn [copy_offsets]. unfold bind. cbn [length] in Hroom.
  pose proof (copy_to_object_spec o out s) as H1.
  pose proof (copy_to_object_overrun o out s) as H2.
  rewrite ArrayOffset_bytes_length in H1, H2.
  destruct (copy_to_object o out s) as [out1 s1]. cbn [fst snd] in *.
  destruct H1 as (-> & [Hl _] & _).
  rewrite IH by (rewrite Hl; lia). apply H2. lia.
Qed.

Lemma output_padding_loop_turn fuel out s :
  output_padding_loop (S fuel) out s
  = if is_aligned (to_ulong (current s)) then (out, s)
    else output_padding_loop fuel (S out)
           (snd (set_current (to_int (current s + 1)) (snd (poke out x00 s)))).
Proof.
  cbn [output_padding_loop]. rewrite bind_run. cbn [get_current fst snd].
  destruct (is_aligned (to_ulong (current s))); [reflexivity|].
  rewrite !bind_run. reflexivity.
Qed.

Lemma output_padding_aligned out s :
  current s mod 64 = 0 -> output_padding out s = (out, s).
Proof.
  intros H. unfold output_padding.
  change (Z.to_nat alignment) with (S 63).
  rewrite output_padding_loop_turn.
  replace (is_aligned (to_ulong (current s))) with true; [reflexivity|].
  symmetry. apply is_aligned_true. now rewrite to_ulong_mod_64.
Qed.

Lemma advance_current_mod k s :
  current (snd (advance_current k s)) mod 64 = (current s + k) mod 64.
Proof.
  rewrite advance_current_current, to_int_mod_64.
  unfold add64. rewrite to_ulong_mod_64.
  rewrite <- Zplus_mod_idemp_l, to_ulong_mod_64, Zplus_mod_idemp_l.
  reflexivity.
Qed.

(** The array loop on arrays whose sizes are multiples of 64 but for the
    last: every write is inside the vector until the padding of the last
    array, which starts where the vector ends. *)
Lemma copy_arrays_overrun init : forall last_range out s,
  current s mod 64 = 0 ->
  Forall (fun r => size r mod 64 = 0) init ->
  (out + length (concat (init ++ [last_range])) = length (mem s))%nat ->
  overrun s = false ->
  overrun (snd (copy_arrays (init ++ [last_range]) out s))
  = negb (is_aligned (size last_range)).
Proof.
  induction init as [|r init IH]; intros last_range out s Hc Hal Hroom Hov.
  - cbn [app concat] in *. rewrite app_nil_r in Hroom.
    cbn [copy_arrays]. unfold bind.
    pose proof (copy_spec last_range out s) as H1.
    pose proof (copy_overrun_inside last_range out s ltac:(lia)) as H2.
    destruct (copy last_range out s) as [out1 s1]. cbn [fst snd] in *.
    destruct H1 as (-> & [Hl _] & Hc1 & _).
    pose proof (advance_current_mod (size last_range) s1) as H3.
    destruct (advance_current (size last_range) s1) as [u s2] eqn:E2.
    assert (Hs2 : mem s2 = mem s1 /\ overrun s2 = overrun s1).
    { unfold advance_current in E2. rewrite bind_run in E2.
      injection E2 as _ <-. split; reflexivity. }
    destruct Hs2 as [Hm2 Ho2]. cbn [snd] in H3.
    destruct (is_aligned (size last_range)) eqn:Ea.
    + apply is_aligned_true in Ea.
      rewrite output_padding_aligned.
      * cbn [ret snd negb]. congruence.
      * rewrite H3, Zplus_mod, Hc1, Hc, Ea. reflexivity.
    + apply is_aligned_false in Ea.
      unfold output_padding. change (Z.to_nat alignment) with (S 63).
      rewrite output_padding_loop_turn.
      replace (is_aligned (to_ulong (current s2))) with false.
      * match goal with
        | |- context [output_padding_loop ?f ?o ?st] =>
            pose proof (output_padding_loop_overrun_kept f o st) as K;
            destruct (output_padding_loop f o st) as [o5 s5]
        end.
        cbn [ret snd negb] in *. apply K.
        cbn [set_current snd overrun].
        apply poke_overrun_outside. rewrite Hm2, Hl. lia.
      * symmetry. apply is_aligned_false.
        rewrite to_ulong_mod_64, H3, Zplus_mod, Hc1, Hc.
        rewrite Z.add_0_l, Zmod_mod. exact Ea.
  - inversion Hal as [|? ? Hr Hinit]; subst.
    cbn [app concat] in *. rewrite length_app in Hroom.
    cbn [copy_arrays]. unfold bind.
    pose proof (copy_spec r out s) as H1.
    pose proof (copy_overrun_inside r out s ltac:(lia)) as H2.
    destruct (copy r out s) as [out1 s1]. cbn [fst snd] in *.
    destruct H1 as (-> & [Hl _] & Hc1 & _).
    pose proof (advance_current_mod (size r) s1) as H3.
    destruct (advance_current (size r) s1) as [u s2] eqn:E2.
    assert (Hs2 : mem s2 = mem s1 /\ overrun s2 = overrun s1).
    { unfold advance_current in E2. rewrite bind_run in E2.
      injection E2 as _ <-. split; reflexivity. }
    destruct Hs2 as [Hm2 Ho2]. cbn [snd] in H3.
    assert (Hc2 : current s2 mod 64 = 0).
    { rewrite H3, Zplus_mod, Hc1, Hc, Hr. reflexivity. }
    rewrite output_padding_aligned by exact Hc2.
    apply IH; [exact Hc2 | exact Hinit | | congruence].
    rewrite Hm2, Hl. lia.
Qed.

(** What [copy_to] hands to the array loop when [pack] runs it. *)
Lemma pack_store_before_arrays ranges :
  fits ranges -> ranges <> [] ->
  exists s4,
    pack_store ranges
    = snd (copy_arrays ranges (Z.to_nat (compute_data_start ranges)) s4)
    /\ length (mem s4) = Z.to_nat (compute_needed_size ranges)
    /\ overrun s4 = false
    /\ current s4 mod 64 = 0.
Proof.
  intros Hfit Hnil.
  assert (Hne : (length ranges =? 0)%nat = false)
    by (destruct ranges; [congruence | reflexivity]).
  pose proof (compute_data_start_fits ranges Hfit) as Hds.
  pose proof (layout_room ranges Hfit) as (R1 & R2 & R3 & R4).
  unfold pack_store.
  set (s := {| mem := replicate (Z.to_nat (compute_needed_size ranges)) x00;
               current := 0; overrun := false |}).
  assert (Hlen : length (mem s) = Z.to_nat (compute_needed_size ranges))
    by apply length_replicate.
  unfold copy_to, bind. cbn [set_current].
  set (s0 := {| mem := mem s; current := 0; overrun := overrun s |}).
  set (offsets := compute_offsets ranges).
  assert (Hn : length offsets = length ranges) by apply compute_offsets_length.
  pose proof (copy_to_object_spec (make_header offsets) 0%nat s0) as H1.
  pose proof (copy_to_object_overrun (make_header offsets) 0%nat s0) as O1.
  rewrite Header_bytes_length in H1, O1.
  destruct (copy_to_object (make_header offsets) 0%nat s0) as [out1 s1].
  cbn [fst snd] in H1, O1. destruct H1 as (Hout1 & [L1 _] & Hcur1 & _).
  cbn [Nat.add] in Hout1. subst out1.
  specialize (O1 ltac:(cbn [mem s0]; lia)).
  assert (Hc1 : current s1 = 32) by (rewrite Hcur1; reflexivity).
  pose proof (output_padding_zeros 32%nat s1) as H2.
  rewrite Hc1 in H2. change (padding_count 32) with 32%nat in H2.
  specialize (H2 ltac:(rewrite L1; cbn [mem s0]; lia)).
  destruct (output_padding 32%nat s1) as [out2 s2].
  cbn [fst snd] in H2.
  destruct H2 as (Hout2 & _ & _ & _ & L2 & Hal2 & O2).
  cbn [Nat.add] in Hout2. subst out2.
  apply is_aligned_true in Hal2. rewrite to_ulong_mod_64 in Hal2.
  rewrite Hn, Hne.
  pose proof (copy_offsets_spec offsets 64%nat s2) as H3.
  pose proof (copy_offsets_current offsets 64%nat s2) as Hc3.
  pose proof (copy_offsets_overrun offsets 64%nat s2) as O3.
  destruct (copy_offsets offsets 64%nat s2) as [out3 s3].
  cbn [fst snd] in H3, Hc3, O3. destruct H3 as (Hout3 & [L3 _] & _). subst out3.
  specialize (O3 ltac:(rewrite L2, L1; cbn [mem s0]; lia)).
  assert (Hpad : (64 + 16 * length offsets + padding_count (current s3))%nat
                 = Z.to_nat (compute_data_start ranges)).
  { rewrite Hds, Hn.
    rewrite (padding_count_mod _ (16 * Z.of_nat (length ranges))).
    - unfold padding_count, round_up. Z.div_mod_to_equations. lia.
    - rewrite Hc3, Hn, <- Zplus_mod_idemp_l, Hal2. reflexivity. }
  pose proof (output_padding_zeros (64 + 16 * length offsets)%nat s3)
    as H4.
  specialize (H4 ltac:(rewrite Hpad, L3, L2, L1; cbn [mem s0]; lia)).
  destruct (output_padding (64 + 16 * length offsets)%nat s3) as [out4 s4].
  cbn [fst snd] in H4.
  destruct H4 as (Hout4 & _ & _ & _ & L4 & Hal4 & O4).
  rewrite Hpad in Hout4. subst out4.
  apply is_aligned_true in Hal4. rewrite to_ulong_mod_64 in Hal4.
  exists s4. split.
  - destruct (copy_arrays ranges (Z.to_nat (compute_data_start ranges)) s4).
    reflexivity.
  - split; [rewrite L4, L3, L2, L1; exact Hlen|].
    split; [|exact Hal4].
    rewrite O4, O3, O2, O1. reflexivity.
Qed.


(** X12. When the sizes of all arrays but the last are multiples of 64,
    [pack] writes outside the vector it allocated exactly when the size of
    the last array is not a multiple of 64: the zero bytes that
    [output_padding] adds behind the last array are not part of
    [compute_needed_size()].  (For a layout below 2^64.) *)
Theorem pack_overruns_behind_last_array
  (init : list ByteRange) (last_range : ByteRange) :
  fits (init ++ [last_range]) ->
  Forall (fun r => size r mod 64 = 0) init ->
  overrun (pack_store (init ++ [last_range]))
  = negb (is_aligned (size last_range)).
Proof.
  intros Hfit Hal.
  set (ranges := init ++ [last_range]) in *.
  assert (Hnil : ranges <> []) by (unfold ranges; now destruct init).
  destruct (pack_store_before_arrays ranges Hfit Hnil)
    as (s4 & -> & Hlen & Hov & Hc).
  pose proof (compute_data_start_range ranges) as Hds.
  apply copy_arrays_overrun; [exact Hc | exact Hal | | exact Hov].
  rewrite Hlen. fold ranges.
  assert (Hi : ranges !! length init = Some last_range).
  { unfold ranges. rewrite lookup_app_r, Nat.sub_diag by lia. reflexivity. }
  assert (Hlast : last (compute_offsets ranges)
                  = compute_offsets ranges !! length init).
  { rewrite last_lookup, compute_offsets_length. unfold ranges.
    rewrite length_app. cbn [length]. f_equal. lia. }
  destruct (compute_offsets ranges !! length init) as [o|] eqn:Eo.
  2:{ apply lookup_ge_None_1 in Eo. rewrite compute_offsets_length in Eo.
      apply lookup_lt_Some in Hi. lia. }
  assert (Hneed : compute_needed_size ranges = _end o).
  { unfold compute_needed_size. rewrite Hlast, compute_offsets_length.
    destruct ranges; [congruence | reflexivity]. }
  pose proof (compute_data_start_fits ranges Hfit) as Hdsf.
  pose proof (round_up_bounds (64 + 16 * Z.of_nat (length ranges))) as Hb.
  rewrite compute_offsets_fits in Eo by assumption.
  pose proof (offsets_from_lookup (map size ranges)
                (compute_data_start ranges) (length init) o
                (size last_range) (sizes_nonneg ranges) ltac:(lia)
                ltac:(rewrite Hdsf; exact Hfit) Eo
                ltac:(rewrite list_lookup_fmap, Hi; reflexivity))
    as (_ & Hend & _).
  apply offsets_from_aligned_prefix in Eo.
  - assert (Hsum : Z.of_nat (length (concat ranges))
                   = foldr Z.add 0 (take (length init) (map size ranges))
                     + size last_range).
    { unfold ranges at 1. rewrite concat_app, length_app. cbn [concat].
      rewrite app_nil_r, Nat2Z.inj_add, concat_length_sizes.
      unfold ranges. rewrite fmap_app, take_app_length'
        by (now rewrite length_fmap).
      reflexivity. }
    lia.
  - apply compute_data_start_aligned.
  - intros j L Hj HL. rewrite list_lookup_fmap in HL.
    unfold ranges in HL. rewrite lookup_app_l in HL by lia.
    destruct (init !! j) as [r|] eqn:Er; [|discriminate].
    injection HL as <-. rewrite Forall_forall in Hal. apply Hal.
    apply list_elem_of_lookup. eauto.
Qed.

Lemma pack_overruns_behind_last_array_witness :
  fits ([] ++ [[x01]])
  /\ Forall (fun r : ByteRange => size r mod 64 = 0) []
  /\ overrun (pack_store ([] ++ [[x01]])) = negb (is_aligned (size [x01])).
Proof.
  assert (Hfit : fits ([] ++ [[x01]])) by reflexivity.
  assert (Hal : Forall (fun r : ByteRange => size r mod 64 = 0) [])
    by constructor.
  split; [exact Hfit|]. split; [exact Hal|].
  exact (pack_overruns_behind_last_array [] [x01] Hfit Hal).
Defined.



End LastPadding.

(** * What [unpack] does with streams that are cut short *)

Section Truncated.
Import BfastRawDataReader.

Lemma read_ulong_Some_bound data pos v :
  read_ulong data pos = Some v -> 0 <= pos /\ pos + 8 <= Z.of_nat (length data).
Proof.
  unfold read_ulong, slice.
  destruct ((0 <=? pos) && (0 <=? 8) && (pos + 8 <=? Z.of_nat (length data)))
    eqn:E; [|discriminate].
  intros _. rewrite !andb_true_iff, !Z.leb_le in E. lia.
Qed.

Lemma read_ulong_short data pos :
  Z.of_nat (length data) < pos + 8 -> read_ulong data pos = None.
Proof.
  intros H. destruct (read_ulong data pos) as [v|] eqn:E; [|reflexivity].
  apply read_ulong_Some_bound in E. lia.
Qed.

(** X13. The only errors [unpack] throws are the two of the header: a
    stream that is cut short or whose offsets make no sense is never
    reported as such. *)
Theorem unpack_throws_only_header_errors (data : list byte) (what : string) :
  unpack data = Throws what ->
  what = invalid_magic \/ what = data_ends_before_it_starts.
Proof.
  unfold unpack.
  destruct (read_ulong data 0) as [m|]; [|discriminate].
  destruct (negb (m =? MAGIC)); [intros [= <-]; now left|].
  destruct (read_ulong data 16) as [e|]; [|discriminate].
  destruct (read_ulong data 8) as [s|]; [|discriminate].
  destruct (e <? s); [intros [= <-]; now right|].
  destruct (read_ulong data 24) as [n|]; [|discriminate].
  destruct (read_ranges data (Z.to_nat n) 0); discriminate.
Qed.

Lemma unpack_throws_only_header_errors_witness :
  unpack swapped_magic_stream = Throws invalid_magic
  /\ (invalid_magic = invalid_magic
      \/ invalid_magic = data_ends_before_it_starts).
Proof.
  assert (H : unpack swapped_magic_stream = Throws invalid_magic)
    by reflexivity.
  split; [exact H|].
  exact (unpack_throws_only_header_errors swapped_magic_stream invalid_magic H).
Defined.

(** X14. [unpack] does not look at the length of the stream before it
    reads the header.  On a stream shorter than the 32 bytes of the header
    it throws one of the two header errors, or it reads a field of the
    header outside the stream, where the source has no defined behaviour;
    on a stream shorter than 8 bytes the first read, of [magic], is already
    outside. *)
Theorem unpack_short_header (data : list byte) :
  (length data < 32)%nat ->
  (unpack data = Undefined
   \/ unpack data = Throws invalid_magic
   \/ unpack data = Throws data_ends_before_it_starts)
  /\ ((length data < 8)%nat -> unpack data = Undefined).
Proof.
  intros Hlen. split.
  - unfold unpack.
    destruct (read_ulong data 0) as [m|]; [|now left].
    destruct (negb (m =? MAGIC)); [right; now left|].
    destruct (read_ulong data 16) as [e|]; [|now left].
    destruct (read_ulong data 8) as [s|]; [|now left].
    destruct (e <? s); [right; now right|].
    rewrite read_ulong_short by lia. now left.
  - intros H8. unfold unpack. rewrite read_ulong_short by lia. reflexivity.
Qed.

Lemma unpack_short_header_witness :
  (length (le_bytes 8 MAGIC) < 32)%nat
  /\ (unpack (le_bytes 8 MAGIC) = Undefined
      \/ unpack (le_bytes 8 MAGIC) = Throws invalid_magic
      \/ unpack (le_bytes 8 MAGIC) = Throws data_ends_before_it_starts).
Proof.
  assert (H : (length (le_bytes 8 MAGIC) < 32)%nat) by (vm_compute; lia).
  split; [exact H | exact (proj1 (unpack_short_header (le_bytes 8 MAGIC) H))].
Defined.

Lemma read_offset_Some_bound data i o :
  read_offset data i = Some o -> 64 + 16 * i + 16 <= Z.of_nat (length data).
Proof.
  unfold read_offset, array_offsets_start, array_offset_size.
  destruct (read_ulong data (64 + 16 * i)); [|discriminate].
  destruct (read_ulong data (64 + 16 * i + 8)) as [e|] eqn:E; [|discriminate].
  intros _. apply read_ulong_Some_bound in E. lia.
Qed.

Lemma read_ranges_short data count : forall i,
  (0 < count)%nat ->
  Z.of_nat (length data) < 64 + 16 * (i + Z.of_nat count) ->
  read_ranges data count i = None.
Proof.
  induction count as [|count IH]; intros i Hc Hlen; [lia|].
  cbn [read_ranges].
  destruct (read_offset data i) as [o|] eqn:Eo; [|reflexivity].
  apply read_offset_Some_bound in Eo.
  destruct count as [|count]; [lia|].
  rewrite IH by lia. reflexivity.
Qed.

(** X15. [unpack] does not compare [num_arrays] with the length of the
    stream.  When the header is good but the stream ends before the last of
    the [num_arrays] entries of the offset table, [unpack] reads an entry
    outside the stream, where the source has no defined behaviour. *)
Theorem unpack_truncated_table (data : list byte) (s e n : Z) :
  read_ulong data 0 = Some MAGIC ->
  read_ulong data 8 = Some s ->
  read_ulong data 16 = Some e ->
  s <= e ->
  read_ulong data 24 = Some n ->
  1 <= n ->
  Z.of_nat (length data) < 64 + 16 * n ->
  unpack data = Undefined.
Proof.
  intros Hm Hs He Hse Hn Hn1 Hlen.
  unfold unpack. rewrite Hm, Z.eqb_refl. cbn [negb]. rewrite He, Hs.
  replace (e <? s) with false by (symmetry; apply Z.ltb_ge; lia).
  rewrite Hn, read_ranges_short by lia. reflexivity.
Qed.

Lemma unpack_truncated_table_witness :
  read_ulong (take 72 inverted_offset_stream) 0 = Some MAGIC
  /\ read_ulong (take 72 inverted_offset_stream) 24 = Some 1
  /\ Z.of_nat (length (take 72 inverted_offset_stream)) < 64 + 16 * 1
  /\ unpack (take 72 inverted_offset_stream) = Undefined.
Proof.
  assert (H0 : read_ulong (take 72 inverted_offset_stream) 0 = Some MAGIC)
    by reflexivity.
  assert (H8 : read_ulong (take 72 inverted_offset_stream) 8 = Some 0)
    by reflexivity.
  assert (H16 : read_ulong (take 72 inverted_offset_stream) 16 = Some 0)
    by reflexivity.
  assert (H24 : read_ulong (take 72 inverted_offset_stream) 24 = Some 1)
    by reflexivity.
  assert (Hlen : Z.of_nat (length (take 72 inverted_offset_stream)) < 64 + 16 * 1)
    by (vm_compute; reflexivity).
  split; [exact H0|]. split; [exact H24|]. split; [exact Hlen|].
  exact (unpack_truncated_table _ 0 0 1 H0 H8 H16 ltac:(lia) H24 ltac:(lia) Hlen).
Defined.

End Truncated.

(** * The stream of named buffers *)

Section NamedStream.
Import BfastRawData BfastRawDataWriter BfastRawDataReader.

Lemma to_raw_data_ranges buffers :
  BfastData.to_raw_data buffers
  = flat_map (fun b => list_byte_of_string (name b) ++ [x00]) buffers
    :: map data buffers.
Proof.
  unfold BfastData.to_raw_data, BfastData.name_data_of.
  rewrite to_raw_data_loop, name_data_loop. reflexivity.
Qed.

(** [BfastData::pack] is [pack] of the raw block. *)
Lemma pack_to_raw_data buffers :
  BfastData.pack buffers = pack (BfastData.to_raw_data buffers).
Proof.
  unfold BfastData.pack. reflexivity.
Qed.

(** C4, amended.  [BfastData::pack] does not look at the names.  It packs
    the raw block whose first range is the names, each copied as it is and
    followed by one null byte, and whose other ranges are the data of the
    buffers, in order; in every stream it returns, the first range of the
    offset table spans exactly those bytes, null bytes of the names
    included.  A buffer whose name holds a null byte is packed like any
    other: for the one empty buffer named [a], null, [b] a stream is
    returned whose first range holds the four bytes [a], null, [b], null. *)
Theorem pack_copies_names_unchecked :
  (forall buffers : list Buffer,
      BfastData.to_raw_data buffers
      = flat_map (fun b => list_byte_of_string (name b) ++ [x00]) buffers
        :: map data buffers)
  /\ (forall (buffers : list Buffer) (stream : list byte) (o : ArrayOffset),
        fits (BfastData.to_raw_data buffers) ->
        BfastData.pack buffers = Returns stream ->
        compute_offsets (BfastData.to_raw_data buffers) !! 0%nat = Some o ->
        range_bytes stream (range_of o)
        = Some (flat_map (fun b => list_byte_of_string (name b) ++ [x00])
                  buffers))
  /\ (exists b, b ∈ null_in_name /\ x00 ∈ list_byte_of_string (name b))
  /\ exists stream,
       BfastData.pack null_in_name = Returns stream
       /\ unpack stream
          = Returns [ {| range_begin := 128; range_end := 132 |};
                      {| range_begin := 192; range_end := 192 |} ]
       /\ range_bytes stream {| range_begin := 128; range_end := 132 |}
          = Some [x61; x00; x62; x00].
Proof.
  split; [|split; [|split]].
  - apply to_raw_data_ranges.
  - intros buffers stream o Hfit Hret Ho. rewrite pack_to_raw_data in Hret.
    apply pack_returns in Hret. destruct Hret as [_ ->].
    apply (pack_range_intact (BfastData.to_raw_data buffers) 0 o);
      [exact Hfit | | exact Ho |].
    + intros j r Hj. lia.
    + rewrite to_raw_data_ranges. reflexivity.
  - eexists. split; [apply list_elem_of_here|].
    vm_compute. apply list_elem_of_further, list_elem_of_here.
  - eexists. split; [vm_compute; reflexivity|].
    split; vm_compute; reflexivity.
Qed.

Lemma pack_copies_names_unchecked_witness :
  fits (BfastData.to_raw_data null_in_name)
  /\ BfastData.pack null_in_name
     = Returns (pack_vector (BfastData.to_raw_data null_in_name))
  /\ range_bytes (pack_vector (BfastData.to_raw_data null_in_name))
       (range_of {| _begin := 128; _end := 132 |})
     = Some (flat_map (fun b => list_byte_of_string (name b) ++ [x00])
               null_in_name).
Proof.
  assert (Hfit : fits (BfastData.to_raw_data null_in_name)) by reflexivity.
  assert (Hret : BfastData.pack null_in_name
                 = Returns (pack_vector (BfastData.to_raw_data null_in_name)))
    by (rewrite pack_to_raw_data; apply pack_inside; vm_compute; reflexivity).
  split; [exact Hfit|]. split; [exact Hret|].
  exact (proj1 (proj2 pack_copies_names_unchecked)
           null_in_name _ _ Hfit Hret eq_refl).
Defined.

(** X16. Every stream [BfastData::pack] returns counts one array more than
    there are buffers, [unpack] accepts it and returns that many ranges,
    and the first of them spans the name table: every name followed by one
    null byte, in the order of the buffers.  (For a layout below 2^64.) *)
Theorem pack_names_first (buffers : list Buffer) (stream : list byte) :
  fits (BfastData.to_raw_data buffers) ->
  BfastData.pack buffers = Returns stream ->
  read_ulong stream 24 = Some (Z.of_nat (length buffers) + 1)
  /\ exists o rest,
       unpack stream = Returns (range_of o :: rest)
       /\ length rest = length buffers
       /\ range_bytes stream (range_of o)
          = Some (flat_map (fun b => list_byte_of_string (name b) ++ [x00])
                    buffers).
Proof.
  intros Hfit Hret. rewrite pack_to_raw_data in Hret.
  apply pack_returns in Hret. destruct Hret as [_ ->].
  set (ranges := BfastData.to_raw_data buffers) in *.
  pose proof (to_raw_data_ranges buffers) as Er. fold ranges in Er.
  assert (Hne : ranges <> []) by (rewrite Er; discriminate).
  assert (Hlen : length ranges = S (length buffers))
    by (rewrite Er; cbn [length]; now rewrite length_map).
  destruct (pack_read_header ranges Hfit Hne) as (_ & _ & _ & H24).
  pose proof (unpack_pack_table ranges Hfit) as Hu.
  pose proof (compute_offsets_length ranges) as Hol.
  destruct (compute_offsets ranges) as [|o offs] eqn:Eo.
  { rewrite Hlen in Hol. discriminate. }
  split; [rewrite H24, Hlen; f_equal; lia|].
  exists o, (map range_of offs).
  split; [exact Hu|].
  split; [rewrite length_map; cbn [length] in Hol; lia|].
  apply (pack_range_intact ranges 0 o); [exact Hfit | | | ].
  - intros j r Hj. lia.
  - rewrite Eo. reflexivity.
  - rewrite Er. reflexivity.
Qed.

Lemma pack_names_first_witness :
  fits (BfastData.to_raw_data two_buffers)
  /\ BfastData.pack two_buffers
     = Returns (pack_vector (BfastData.to_raw_data two_buffers))
  /\ read_ulong (pack_vector (BfastData.to_raw_data two_buffers)) 24
     = Some (Z.of_nat (length two_buffers) + 1)
  /\ exists o rest,
       unpack (pack_vector (BfastData.to_raw_data two_buffers))
       = Returns (range_of o :: rest)
       /\ length rest = length two_buffers
       /\ range_bytes (pack_vector (BfastData.to_raw_data two_buffers))
            (range_of o)
          = Some (flat_map (fun b => list_byte_of_string (name b) ++ [x00])
                    two_buffers).
Proof.
  assert (Hfit : fits (BfastData.to_raw_data two_buffers)) by reflexivity.
  assert (Hret : BfastData.pack two_buffers
                 = Returns (pack_vector (BfastData.to_raw_data two_buffers)))
    by (rewrite pack_to_raw_data; apply pack_inside; vm_compute; reflexivity).
  split; [exact Hfit|]. split; [exact Hret|].
  exact (pack_names_first two_buffers _ Hfit Hret).
Defined.

End NamedStream.

(** * The stream written to standard output *)

Section Stdout.
Import BfastRawData BfastRawDataReader.
Import BfastBuilder.

Lemma stream_copy src : forall out s,
  copy src out s
  = (out, {| mem := mem s ++ src; current := current s;
             overrun := overrun s |}).
Proof.
  induction src as [|b src IH]; intros out s.
  - cbn [copy ret]. rewrite app_nil_r. now destruct s.
  - cbn [copy]. unfold bind, put. rewrite IH. cbn [mem current overrun].
    now rewrite <- app_assoc.
Qed.

Lemma stream_copy_to_object {T} `{Layout T} (x : T) out s :
  copy_to_object x out s
  = (out, {| mem := mem s ++ object_bytes x;
             current := to_int (add64 (to_ulong (current s)) sizeof);
             overrun := overrun s |}).
Proof.
  unfold copy_to_object, bind, advance_current, bind, get_current, set_current.
  now rewrite stream_copy.
Qed.

Lemma stream_output_padding_loop fuel : forall out s,
  (padding_count (current s) <= fuel)%nat ->
  exists c,
    output_padding_loop fuel out s
    = (out, {| mem := mem s ++ replicate (padding_count (current s)) x00;
               current := c; overrun := overrun s |})
    /\ c mod 64 = 0.
Proof.
  induction fuel as [|fuel IH]; intros out s Hfuel.
  - assert (Hc : current s mod 64 = 0).
    { destruct (Z.eq_dec (current s mod 64) 0) as [E|E]; [exact E|].
      rewrite (padding_count_step _ E) in Hfuel. lia. }
    exists (current s). rewrite padding_count_aligned by exact Hc.
    cbn [output_padding_loop ret replicate]. rewrite app_nil_r.
    split; [now destruct s | exact Hc].
  - cbn [output_padding_loop]. unfold bind at 1. cbn [get_current].
    destruct (is_aligned (to_ulong (current s))) eqn:E.
    + apply is_aligned_true in E. rewrite to_ulong_mod_64 in E.
      exists (current s). rewrite padding_count_aligned by exact E.
      cbn [ret replicate]. rewrite app_nil_r.
      split; [now destruct s | exact E].
    + apply is_aligned_false in E. rewrite to_ulong_mod_64 in E.
      rewrite (padding_count_step _ E) in Hfuel |- *.
      rewrite !bind_run. unfold put, set_current.
      cbn [fst snd mem current overrun].
      destruct (IH out {| mem := mem s ++ [x00];
                          current := to_int (current s + 1);
                          overrun := overrun s |}) as (c & Hrun & Hc).
      { cbn [current]. lia. }
      exists c. rewrite Hrun. cbn [mem current overrun replicate].
      rewrite <- app_assoc. split; [reflexivity | exact Hc].
Qed.

Lemma stream_output_padding out s :
  exists c,
    output_padding out s
    = (out, {| mem := mem s ++ replicate (padding_count (current s)) x00;
               current := c; overrun := overrun s |})
    /\ c mod 64 = 0.
Proof.
  unfold output_padding. apply stream_output_padding_loop.
  apply padding_count_bound.
Qed.

Lemma stream_copy_offsets offsets : forall out s,
  exists c,
    copy_offsets offsets out s
    = (out, {| mem := mem s ++ flat_map object_bytes offsets;
               current := c; overrun := overrun s |})
    /\ c mod 64 = (current s + 16 * Z.of_nat (length offsets)) mod 64.
Proof.
  induction offsets as [|o rest IH]; intros out s.
  - exists (current s). cbn [copy_offsets ret flat_map length].
    rewrite app_nil_r. split; [now destruct s | f_equal; lia].
  - cbn [copy_offsets]. unfold bind. rewrite stream_copy_to_object.
    destruct (IH out {| mem := mem s ++ object_bytes o;
                        current := to_int (add64 (to_ulong (current s)) sizeof);
                        overrun := overrun s |}) as (c & Hrun & Hc).
    exists c. rewrite Hrun. cbn [mem current overrun flat_map] in *.
    rewrite <- app_assoc. split; [reflexivity|].
    assert (Hx : to_int (add64 (to_ulong (current s)) 16) mod 64
                 = (current s + 16) mod 64).
    { rewrite to_int_mod_64. unfold add64. rewrite to_ulong_mod_64.
      rewrite <- Zplus_mod_idemp_l, to_ulong_mod_64, Zplus_mod_idemp_l.
      reflexivity. }
    cbn [sizeof ArrayOffset_Layout] in Hc.
    rewrite Hc, <- Zplus_mod_idemp_l, Hx, Zplus_mod_idemp_l.
    f_equal. cbn [length]. lia.
Qed.

(** Started with [current] aligned, the array loop sends every array and
    then the zero bytes that bring its size to a multiple of 64. *)
Lemma stream_copy_arrays ranges : forall out s,
  current s mod 64 = 0 ->
  exists c,
    copy_arrays ranges out s
    = (out, {| mem := mem s ++ flat_map padded ranges;
               current := c; overrun := overrun s |})
    /\ c mod 64 = 0.
Proof.
  induction ranges as [|range rest IH]; intros out s Hc.
  - exists (current s). cbn [copy_arrays ret flat_map].
    rewrite app_nil_r. split; [now destruct s | exact Hc].
  - cbn [copy_arrays]. unfold bind at 1. rewrite stream_copy.
    unfold bind at 1. unfold advance_current, bind, get_current, set_current.
    cbn [mem current overrun].
    set (s2 := {| mem := mem s ++ range;
                  current := to_int (add64 (to_ulong (current s)) (size range));
                  overrun := overrun s |}).
    destruct (stream_output_padding out s2) as (c3 & Hpad & Hc3).
    rewrite Hpad.
    assert (Hcount : padding_count (current s2) = padding_count (size range)).
    { apply padding_count_mod. unfold s2. cbn [current].
      rewrite to_int_mod_64. unfold add64. rewrite to_ulong_mod_64.
      rewrite <- Zplus_mod_idemp_l, to_ulong_mod_64, Hc. reflexivity. }
    rewrite Hcount.
    destruct (IH out {| mem := mem s2 ++ replicate (padding_count (size range)) x00;
                        current := c3; overrun := overrun s2 |} Hc3)
      as (c & Hrun & Hcm).
    exists c. rewrite Hrun. unfold s2. cbn [mem current overrun flat_map].
    unfold padded at 2. rewrite <- !app_assoc.
    split; [reflexivity | exact Hcm].
Qed.

(** X17. What [to_stdout] sends, byte for byte and for every input: the
    header, 32 zero bytes, and when there is a range, the offset table, the
    zero bytes that bring it to a multiple of 64, and every array followed
    by the zero bytes that bring its size to a multiple of 64, the last
    array included. *)
Theorem to_stdout_stream (ranges : list ByteRange) :
  to_stdout ranges
  = object_bytes (BfastRawDataWriter.make_header (compute_offsets ranges))
    ++ replicate 32 x00
    ++ (if (length ranges =? 0)%nat then []
        else flat_map object_bytes (compute_offsets ranges)
             ++ replicate (padding_count (16 * Z.of_nat (length ranges))) x00
             ++ flat_map padded ranges).
Proof.
  unfold to_stdout, copy_to. unfold bind at 1. cbn [set_current mem overrun].
  unfold bind at 1. rewrite stream_copy_to_object. cbn [mem current overrun].
  unfold bind at 1.
  set (s1 := {| mem := [] ++ object_bytes
                  (BfastRawDataWriter.make_header (compute_offsets ranges));
                current := to_int (add64 (to_ulong 0) sizeof);
                overrun := false |}).
  destruct (stream_output_padding over_cout s1) as (c2 & Hpad & Hc2).
  rewrite Hpad.
  change (padding_count (current s1)) with 32%nat.
  rewrite compute_offsets_length.
  destruct (length ranges =? 0)%nat eqn:En.
  - cbn [ret snd mem]. unfold s1. cbn [mem]. rewrite app_nil_r. reflexivity.
  - unfold bind at 1.
    set (s2 := {| mem := mem s1 ++ replicate 32 x00; current := c2;
                  overrun := overrun s1 |}).
    destruct (stream_copy_offsets (compute_offsets ranges) over_cout s2)
      as (c3 & Hoff & Hc3).
    rewrite Hoff. unfold bind at 1.
    set (s3 := {| mem := mem s2 ++ flat_map object_bytes (compute_offsets ranges);
                  current := c3; overrun := overrun s2 |}).
    destruct (stream_output_padding over_cout s3) as (c4 & Hpad4 & Hc4).
    rewrite Hpad4.
    assert (Hcount : padding_count (current s3)
                     = padding_count (16 * Z.of_nat (length ranges))).
    { apply padding_count_mod. unfold s3. cbn [current].
      rewrite Hc3. unfold s2. cbn [current].
      rewrite compute_offsets_length, <- Zplus_mod_idemp_l, Hc2. reflexivity. }
    rewrite Hcount. unfold bind at 1.
    destruct (stream_copy_arrays ranges over_cout
                {| mem := mem s3 ++ replicate
                            (padding_count (16 * Z.of_nat (length ranges))) x00;
                   current := c4; overrun := overrun s3 |} Hc4)
      as (c5 & Harr & _).
    rewrite Harr. cbn [ret snd mem]. unfold s3, s2, s1. cbn [mem].
    rewrite <- !app_assoc. reflexivity.
Qed.

End Stdout.

(** * Reading back what was written to standard output *)

Section StdoutRoundTrip.
Import BfastRawData BfastRawDataReader.
Import BfastBuilder.

Lemma stored_middle (l1 bs l2 : list byte) :
  stored (l1 ++ bs ++ l2) (length l1) bs.
Proof.
  intros j Hj. rewrite lookup_app_r by lia.
  replace (length l1 + j - length l1)%nat with j by lia.
  now rewrite lookup_app_l.
Qed.

Lemma slice_middle (l1 bs l2 : list byte) :
  slice (l1 ++ bs ++ l2) (Z.of_nat (length l1)) (Z.of_nat (length bs))
  = Some bs.
Proof.
  apply slice_stored_room; [|apply stored_middle].
  rewrite !length_app. lia.
Qed.

Lemma padded_length range :
  Z.of_nat (length (padded range)) = round_up (size range).
Proof.
  unfold padded, padding_count, round_up, size.
  rewrite length_app, length_replicate.
  pose proof (Z.mod_pos_bound (- Z.of_nat (length range)) 64 ltac:(lia)).
  rewrite Nat2Z.inj_add, Z2Nat.id by lia.
  Z.div_mod_to_equations. lia.
Qed.

Lemma round_up_add_aligned c z :
  c mod 64 = 0 -> round_up (c + z) = c + round_up z.
Proof. intros H. unfold round_up. Z.div_mod_to_equations. lia. Qed.

Lemma flat_map_padded_length ranges :
  Z.of_nat (length (flat_map padded ranges)) mod 64 = 0.
Proof.
  induction ranges as [|r rest IH]; [reflexivity|].
  cbn [flat_map]. rewrite length_app, Nat2Z.inj_add, padded_length.
  rewrite Zplus_mod, IH, round_up_mod. reflexivity.
Qed.

(** Without wrap-around, the offsets are where the padded arrays begin. *)
Lemma offsets_from_padded ranges : forall cursor i o,
  cursor mod 64 = 0 -> 0 <= cursor ->
  layout_end cursor (map size ranges) < 2 ^ 64 ->
  offsets_from cursor (map size ranges) !! i = Some o ->
  _begin o = cursor + Z.of_nat (length (flat_map padded (take i ranges))).
Proof.
  induction ranges as [|r rest IH]; intros cursor i o Hc H0 Hfit Ho.
  - discriminate.
  - cbn [map offsets_from layout_end] in *.
    pose proof (size_nonneg r) as Hs.
    pose proof (round_up_bounds (cursor + size r)) as Hb.
    pose proof (layout_end_ge (map size rest) (round_up (cursor + size r))
                  (sizes_nonneg rest)) as Hge.
    destruct i as [|i].
    + injection Ho as <-. simpl. lia.
    + cbn [lookup list_lookup] in Ho.
      rewrite aligned_value_round_up in Ho by lia.
      apply IH in Ho; [| apply round_up_mod | lia | exact Hfit].
      rewrite Ho. cbn [take flat_map].
      rewrite length_app, Nat2Z.inj_add, padded_length.
      rewrite round_up_add_aligned by exact Hc. lia.
Qed.

(** [unpack] on any stream that holds the header and the offset table of
    the ranges and is not shorter than the table. *)
Lemma unpack_stored_table (stream : list byte) ranges :
  fits ranges -> ranges <> [] ->
  stored stream 0
    (object_bytes (BfastRawDataWriter.make_header (compute_offsets ranges))) ->
  stored stream 64 (flat_map object_bytes (compute_offsets ranges)) ->
  unpack stream = Returns (map range_of (compute_offsets ranges)).
Proof.
  intros Hfit Hne Hhead Htable.
  destruct (make_header_values ranges Hfit Hne) as (Es & Ee & En).
  pose proof (layout_room ranges Hfit) as (R1 & R2 & R3 & R4).
  pose proof (compute_needed_size_nonneg ranges) as Hnn.
  cbn [object_bytes Header_Layout] in Hhead.
  apply stored_app in Hhead. destruct Hhead as [H0 Hhead].
  apply stored_app in Hhead. destruct Hhead as [H8 Hhead].
  apply stored_app in Hhead. destruct Hhead as [H16 H24].
  rewrite !le_bytes_length in *. rewrite Es in H8. rewrite Ee in H16.
  rewrite En in H24. cbn [BfastRawDataWriter.make_header magic] in H0.
  apply (read_ulong_stored _ 0) in H0; [|vm_compute; split; congruence].
  apply (read_ulong_stored _ 8) in H8; [|lia].
  apply (read_ulong_stored _ 16) in H16; [|lia].
  apply (read_ulong_stored _ 24) in H24; [|lia].
  change (Z.of_nat 0) with 0 in H0. change (Z.of_nat 8) with 8 in H8.
  change (Z.of_nat 16) with 16 in H16. change (Z.of_nat 24) with 24 in H24.
  assert (Hread : forall i o, compute_offsets ranges !! i = Some o ->
                              read_offset stream (Z.of_nat i) = Some o).
  { intros i o Ho.
    pose proof (compute_offsets_values ranges) as Hv.
    rewrite Forall_forall in Hv.
    destruct (Hv o) as (_ & Hb & He); [apply list_elem_of_lookup; eauto|].
    apply read_offset_stored; [assumption..|].
    now apply (stored_offsets_lookup _ (compute_offsets ranges)). }
  assert (Hlen : 64 + 16 * Z.of_nat (length ranges) <= Z.of_nat (length stream)).
  { destruct (length ranges) as [|k] eqn:Ek; [destruct ranges; [congruence|discriminate]|].
    pose proof (compute_offsets_length ranges) as Hol. rewrite Ek in Hol.
    destruct (lookup_lt_is_Some_2 (compute_offsets ranges) k ltac:(lia))
      as [o Ho].
    apply Hread, read_offset_Some_bound in Ho. lia. }
  unfold unpack. rewrite H0, Z.eqb_refl. cbn [negb]. rewrite H16, H8.
  replace (compute_needed_size ranges <? compute_data_start ranges)
    with false by (symmetry; apply Z.ltb_ge; lia).
  rewrite H24, Nat2Z.id.
  destruct (read_ranges_spec stream (length ranges) 0)
    as (rs & Hrs & Hl & Hk); [lia | lia |].
  rewrite Hrs. f_equal. apply list_eq. intros i.
  rewrite list_lookup_fmap.
  destruct (Nat.lt_ge_cases i (length ranges)) as [Hi|Hi].
  - destruct (Hk i Hi) as (o & Ho & Hri). rewrite Hri.
    pose proof Hi as Hi'. rewrite <- compute_offsets_length in Hi'.
    destruct (lookup_lt_is_Some_2 _ _ Hi') as [o' Ho'].
    rewrite Ho'. cbn [fmap option_fmap option_map].
    rewrite Z.add_0_l, (Hread i o' Ho') in Ho.
    now injection Ho as ->.
  - rewrite (lookup_ge_None_2 rs) by lia.
    rewrite (lookup_ge_None_2 (compute_offsets ranges))
      by (rewrite compute_offsets_length; lia).
    reflexivity.
Qed.

(** The part of the stream before the arrays is as long as
    [compute_data_start()] says. *)
Lemma stdout_prefix_length ranges :
  fits ranges ->
  Z.of_nat
    (length (object_bytes (BfastRawDataWriter.make_header (compute_offsets ranges))
             ++ replicate 32 x00
             ++ flat_map object_bytes (compute_offsets ranges)
             ++ replicate (padding_count (16 * Z.of_nat (length ranges))) x00))
  = compute_data_start ranges.
Proof.
  intros Hfit. rewrite (compute_data_start_fits ranges Hfit).
  rewrite !length_app, Header_bytes_length, !length_replicate,
    flat_map_offsets_length, compute_offsets_length.
  unfold padding_count, round_up.
  pose proof (Z.mod_pos_bound (- (16 * Z.of_nat (length ranges))) 64 ltac:(lia)).
  rewrite !Nat2Z.inj_add, Z2Nat.id by lia.
  Z.div_mod_to_equations. lia.
Qed.

(** X18. What [to_stdout] sends is read back whole: [unpack] returns the
    ranges of the offset table, and the bytes each of them spans are the
    bytes of the array that was given, in order.  (For a layout below
    2^64.) *)
Theorem to_stdout_round_trip (ranges : list ByteRange) :
  fits ranges ->
  unpack (to_stdout ranges) = Returns (map range_of (compute_offsets ranges))
  /\ map (range_bytes (to_stdout ranges))
         (map range_of (compute_offsets ranges))
     = map Some ranges.
Proof.
  intros Hfit.
  destruct ranges as [|range0 rest0] eqn:Eranges.
  { split; vm_compute; reflexivity. }
  rewrite <- Eranges in *.
  assert (Hne : ranges <> []) by (subst; discriminate).
  assert (Hn : (length ranges =? 0)%nat = false) by now subst.
  clear Eranges.
  pose proof (to_stdout_stream ranges) as Hs. rewrite Hn in Hs.
  pose proof (stdout_prefix_length ranges Hfit) as Hpre.
  pose proof (compute_data_start_fits ranges Hfit) as Hds.
  pose proof (round_up_bounds (64 + 16 * Z.of_nat (length ranges))) as Hb.
  split.
  - apply unpack_stored_table; [exact Hfit | exact Hne | |].
    + rewrite Hs. apply (stored_middle []).
    + rewrite Hs.
      replace 64%nat with
        (length (object_bytes (BfastRawDataWriter.make_header
                                 (compute_offsets ranges)) ++ replicate 32 x00))
        by (rewrite length_app, Header_bytes_length, length_replicate;
            reflexivity).
      rewrite (app_assoc (object_bytes _)). apply stored_middle.
  - rewrite map_map. apply list_eq. intros i. rewrite !list_lookup_fmap.
    destruct (ranges !! i) as [r|] eqn:Er.
    2:{ apply lookup_ge_None_1 in Er.
        rewrite (lookup_ge_None_2 (compute_offsets ranges))
          by (rewrite compute_offsets_length; lia).
        reflexivity. }
    pose proof (lookup_lt_Some _ _ _ Er) as Hi.
    rewrite <- compute_offsets_length in Hi.
    destruct (lookup_lt_is_Some_2 _ _ Hi) as [o Ho]. rewrite Ho.
    cbn [fmap option_fmap option_map]. f_equal.
    rewrite compute_offsets_fits in Ho by assumption.
    pose proof (offsets_from_lookup (map size ranges)
                  (compute_data_start ranges) i o (size r)
                  (sizes_nonneg ranges) ltac:(lia)
                  ltac:(rewrite Hds; exact Hfit) Ho
                  ltac:(rewrite list_lookup_fmap, Er; reflexivity))
      as (_ & Hend & _).
    apply offsets_from_padded in Ho;
      [ | apply compute_data_start_aligned | lia | rewrite Hds; exact Hfit].
    unfold range_bytes, range_of. cbn [range_begin range_end].
    rewrite Hend, Ho, <- Hpre, <- Nat2Z.inj_add, <- length_app.
    match goal with
    | |- slice _ (Z.of_nat (length ?pre)) ?len = _ =>
        replace len with (Z.of_nat (length r)) by (unfold size; lia);
        replace (to_stdout ranges)
          with (pre ++ r ++ (replicate (padding_count (size r)) x00
                             ++ flat_map padded (drop (S i) ranges)))
    end.
    + apply slice_middle.
    + assert (E : flat_map padded ranges
                  = flat_map padded (take i ranges)
                    ++ padded r ++ flat_map padded (drop (S i) ranges)).
      { rewrite <- (take_drop_middle ranges i r Er) at 1.
        rewrite flat_map_app. reflexivity. }
      rewrite Hs, E.
      change (padded r) with (r ++ replicate (padding_count (size r)) x00).
      rewrite <- !app_assoc. reflexivity.
Qed.

Lemma to_stdout_round_trip_witness :
  fits two_arrays
  /\ unpack (to_stdout two_arrays)
     = Returns (map range_of (compute_offsets two_arrays))
  /\ map (range_bytes (to_stdout two_arrays))
         (map range_of (compute_offsets two_arrays))
     = map Some two_arrays.
Proof.
  assert (Hfit : fits two_arrays) by reflexivity.
  split; [exact Hfit | exact (to_stdout_round_trip two_arrays Hfit)].
Defined.

End StdoutRoundTrip.

(** * How long the stream written to standard output is *)

Section StdoutLength.
Import BfastRawData BfastBuilder.

Lemma layout_end_padded ranges : forall cursor,
  cursor mod 64 = 0 ->
  layout_end cursor (map size ranges)
  = cursor + Z.of_nat (length (flat_map padded ranges)).
Proof.
  induction ranges as [|r rest IH]; intros cursor Hc.
  - simpl. lia.
  - cbn [map layout_end flat_map].
    rewrite IH by apply round_up_mod.
    rewrite length_app, Nat2Z.inj_add, padded_length.
    rewrite round_up_add_aligned by exact Hc. lia.
Qed.

(** X19. With at least one range, [to_stdout] sends
    [aligned_value(compute_needed_size())] bytes: the size [pack] allocates
    and then the padding of the last array, so a multiple of 64.  (For a
    layout below 2^64.) *)
Theorem to_stdout_length (ranges : list ByteRange) :
  fits ranges -> ranges <> [] ->
  Z.of_nat (length (to_stdout ranges)) = aligned_value (compute_needed_size ranges)
  /\ compute_needed_size ranges <= Z.of_nat (length (to_stdout ranges))
     < compute_needed_size ranges + 64
  /\ Z.of_nat (length (to_stdout ranges)) mod 64 = 0.
Proof.
  intros Hfit Hne.
  assert (Hn : (length ranges =? 0)%nat = false)
    by (destruct ranges; [congruence | reflexivity]).
  pose proof (to_stdout_stream ranges) as Hs. rewrite Hn in Hs.
  pose proof (stdout_prefix_length ranges Hfit) as Hpre.
  pose proof (compute_data_start_fits ranges Hfit) as Hds.
  pose proof (compute_data_start_aligned ranges) as Hal.
  pose proof (round_up_bounds (64 + 16 * Z.of_nat (length ranges))) as Hb.
  assert (Hlen : Z.of_nat (length (to_stdout ranges))
                 = layout_end (compute_data_start ranges) (map size ranges)).
  { rewrite layout_end_padded by exact Hal. rewrite <- Hpre, Hs.
    rewrite !length_app. lia. }
  assert (Hlast : exists i r o,
             ranges !! i = Some r /\ S i = length ranges
             /\ compute_offsets ranges !! i = Some o
             /\ compute_needed_size ranges = _end o).
  { unfold compute_needed_size. rewrite compute_offsets_length, Hn.
    rewrite last_lookup, compute_offsets_length.
    destruct (length ranges) as [|k] eqn:Ek; [discriminate Hn|].
    cbn [Init.Nat.pred].
    destruct (lookup_lt_is_Some_2 ranges k ltac:(lia)) as [r Hr].
    destruct (lookup_lt_is_Some_2 (compute_offsets ranges) k
                ltac:(rewrite compute_offsets_length; lia)) as [o Ho].
    exists k, r, o. rewrite Ho. auto. }
  destruct Hlast as (i & r & o & Hr & Hi & Ho & Hneed).
  rewrite compute_offsets_fits in Ho by assumption.
  pose proof (offsets_from_lookup (map size ranges)
                (compute_data_start ranges) i o (size r)
                (sizes_nonneg ranges) ltac:(lia)
                ltac:(rewrite Hds; exact Hfit) Ho
                ltac:(rewrite list_lookup_fmap, Hr; reflexivity))
    as (_ & Hend & _).
  apply offsets_from_padded in Ho;
    [ | exact Hal | lia | rewrite Hds; exact Hfit].
  assert (Hall : flat_map padded ranges
                 = flat_map padded (take i ranges) ++ padded r).
  { rewrite <- (take_drop_middle ranges i r Hr) at 1.
    rewrite flat_map_app, drop_ge by lia. cbn [flat_map].
    now rewrite app_nil_r. }
  assert (Hround : Z.of_nat (length (to_stdout ranges))
                   = round_up (compute_needed_size ranges)).
  { rewrite Hlen, layout_end_padded by exact Hal.
    rewrite Hall, length_app, Nat2Z.inj_add, padded_length.
    rewrite Hneed, Hend, Ho.
    rewrite round_up_add_aligned; [lia|].
    rewrite Zplus_mod, Hal, flat_map_padded_length. reflexivity. }
  pose proof (round_up_bounds (compute_needed_size ranges)) as Hrb.
  pose proof (compute_needed_size_nonneg ranges) as Hnn.
  unfold fits in Hfit. rewrite <- Hds, <- Hlen, Hround in Hfit.
  split; [|split].
  - rewrite aligned_value_round_up by lia. exact Hround.
  - lia.
  - rewrite Hround. apply round_up_mod.
Qed.

Lemma to_stdout_length_witness :
  fits one_array /\ one_array <> []
  /\ Z.of_nat (length (to_stdout one_array))
     = aligned_value (compute_needed_size one_array)
  /\ compute_needed_size one_array <= Z.of_nat (length (to_stdout one_array))
     < compute_needed_size one_array + 64
  /\ Z.of_nat (length (to_stdout one_array)) mod 64 = 0.
Proof.
  assert (Hfit : fits one_array) by reflexivity.
  assert (Hne : one_array <> []) by discriminate.
  split; [exact Hfit|]. split; [exact Hne|].
  exact (to_stdout_length one_array Hfit Hne).
Defined.

End StdoutLength.

(** * The packed stream, byte for byte *)

Section PackedBytes.
Import BfastRawData BfastRawDataWriter.

Lemma holds_zero_from s out content :
  holds s out content -> zero_from out (mem s).
Proof.
  intros [Hl Hm] j Hj. rewrite Hm.
  rewrite lookup_app_r by lia.
  apply lookup_replicate_2. lia.
Qed.

Lemma holds_room s out content : holds s out content -> (out <= length (mem s))%nat.
Proof.
  intros [Hl Hm]. apply (f_equal length) in Hm.
  rewrite length_app in Hm. lia.
Qed.

Lemma poke_holds s out content b :
  holds s out content -> (out < length (mem s))%nat ->
  holds (snd (poke out b s)) (S out) (content ++ [b]).
Proof.
  intros [Hl Hm] Hlt. split; [rewrite length_app; simpl; lia|].
  rewrite poke_mem, length_insert.
  rewrite Hm at 1.
  replace (length (mem s) - out)%nat with (S (length (mem s) - S out)) by lia.
  cbn [replicate].
  replace out with (length content + 0)%nat at 1 by lia.
  rewrite insert_app_r. cbn. now rewrite <- app_assoc.
Qed.

Lemma copy_holds src : forall out s content,
  holds s out content -> (out + length src <= length (mem s))%nat ->
  holds (snd (copy src out s)) (out + length src) (content ++ src).
Proof.
  induction src as [|b src IH]; intros out s content Hh Hroom.
  - cbn [copy ret snd length]. rewrite Nat.add_0_r, app_nil_r. exact Hh.
  - cbn [copy]. rewrite bind_run. cbn [length] in *.
    replace (out + S (length src))%nat with (S out + length src)%nat by lia.
    replace (content ++ b :: src) with ((content ++ [b]) ++ src)
      by now rewrite <- app_assoc.
    apply IH.
    + apply poke_holds; [exact Hh | lia].
    + rewrite poke_mem, length_insert. lia.
Qed.

(** Zero bytes written over zero bytes, or outside the vector, change
    nothing in it. *)
Lemma output_padding_loop_over_zeros fuel : forall out s,
  zero_from out (mem s) ->
  mem (snd (output_padding_loop fuel out s)) = mem s.
Proof.
  induction fuel as [|fuel IH]; intros out s Hz; [reflexivity|].
  rewrite output_padding_loop_turn.
  destruct (is_aligned (to_ulong (current s))); [reflexivity|].
  assert (Hm : mem (snd (set_current (to_int (current s + 1))
                           (snd (poke out x00 s)))) = mem s).
  { cbn [set_current snd mem]. rewrite poke_mem.
    destruct (Nat.lt_ge_cases out (length (mem s))) as [Hlt|Hge].
    - apply list_insert_id, Hz. lia.
    - now apply list_insert_ge. }
  rewrite IH; [exact Hm|].
  rewrite Hm. intros j Hj. apply Hz. lia.
Qed.

Lemma output_padding_holds s out content :
  holds s out content ->
  (out + padding_count (current s) <= length (mem s))%nat ->
  holds (snd (output_padding out s)) (out + padding_count (current s))
    (content ++ replicate (padding_count (current s)) x00).
Proof.
  intros Hh Hroom. pose proof Hh as [Hl Hm].
  unfold output_padding.
  pose proof (output_padding_loop_over_zeros (Z.to_nat alignment) out s
                (holds_zero_from _ _ _ Hh)) as Hsame.
  split; [rewrite length_app, length_replicate; lia|].
  rewrite Hsame. rewrite Hm at 1. rewrite <- app_assoc. f_equal.
  rewrite <- replicate_add. f_equal. lia.
Qed.

Lemma copy_to_object_holds {T} `{Layout T} (x : T) s out content :
  holds s out content ->
  (out + length (object_bytes x) <= length (mem s))%nat ->
  holds (snd (copy_to_object x out s)) (out + length (object_bytes x))
    (content ++ object_bytes x).
Proof.
  intros Hh Hroom. unfold copy_to_object. rewrite bind_run.
  apply copy_holds; [exact Hh | exact Hroom].
Qed.

Lemma copy_offsets_holds offsets : forall s out content,
  holds s out content ->
  (out + 16 * length offsets <= length (mem s))%nat ->
  holds (snd (copy_offsets offsets out s)) (out + 16 * length offsets)
    (content ++ flat_map object_bytes offsets).
Proof.
  induction offsets as [|o rest IH]; intros s out content Hh Hroom.
  - cbn [copy_offsets ret snd length flat_map].
    rewrite Nat.mul_0_r, Nat.add_0_r, app_nil_r. exact Hh.
  - cbn [copy_offsets]. unfold bind. cbn [length] in Hroom.
    pose proof (copy_to_object_holds o s out content Hh) as H1.
    pose proof (copy_to_object_spec o out s) as H2.
    rewrite ArrayOffset_bytes_length in H1, H2.
    destruct (copy_to_object o out s) as [out1 s1]. cbn [fst snd] in *.
    destruct H2 as (-> & [Hlen _] & _).
    specialize (H1 ltac:(lia)).
    specialize (IH s1 (out + 16)%nat _ H1 ltac:(rewrite Hlen; lia)).
    cbn [flat_map length]. rewrite app_assoc.
    replace (out + 16 * S (length rest))%nat
      with (out + 16 + 16 * length rest)%nat by lia.
    exact IH.
Qed.

(** In the array loop the zero bytes of [output_padding] fall on zero
    bytes: the vector holds the arrays one behind the other and is
    otherwise as it was. *)
Lemma copy_arrays_holds ranges : forall s out content,
  holds s out content ->
  (out + length (concat ranges) <= length (mem s))%nat ->
  holds (snd (copy_arrays ranges out s)) (out + length (concat ranges))
    (content ++ concat ranges).
Proof.
  induction ranges as [|range rest IH]; intros s out content Hh Hroom.
  - cbn [copy_arrays ret snd concat length].
    rewrite Nat.add_0_r, app_nil_r. exact Hh.
  - cbn [concat] in *. rewrite length_app in Hroom.
    cbn [copy_arrays]. unfold bind.
    pose proof (copy_holds range out s content Hh ltac:(lia)) as H1.
    pose proof (copy_spec range out s) as H2.
    destruct (copy range out s) as [out1 s1]. cbn [fst snd] in *.
    destruct H2 as (-> & [Hlen1 _] & _).
    destruct (advance_current (size range) s1) as [u s2] eqn:E2.
    assert (Hm2 : mem s2 = mem s1).
    { pose proof (advance_current_mem (size range) s1) as Hm.
      rewrite E2 in Hm. exact Hm. }
    assert (H2h : holds s2 (out + length range) (content ++ range)).
    { destruct H1 as [Hl Hm]. split; [exact Hl|]. rewrite Hm2. exact Hm. }
    pose proof (output_padding_loop_over_zeros (Z.to_nat alignment)
                  (out + length range)%nat s2 (holds_zero_from _ _ _ H2h))
      as Hsame.
    fold (output_padding (out + length range)%nat s2) in Hsame.
    destruct (output_padding (out + length range)%nat s2) as [out3 s3].
    cbn [snd] in Hsame.
    assert (H3h : holds s3 (out + length range) (content ++ range)).
    { destruct H2h as [Hl Hm]. split; [exact Hl|]. rewrite Hsame. exact Hm. }
    specialize (IH s3 (out + length range)%nat _ H3h
                  ltac:(rewrite Hsame, Hm2, Hlen1; lia)).
    rewrite length_app, app_assoc.
    replace (out + (length range + length (concat rest)))%nat
      with (out + length range + length (concat rest))%nat by lia.
    exact IH.
Qed.

(** X20. A stream [pack] returns, byte for byte: the header, 32 zero
    bytes, and when there is a range, the offset table, the zero bytes that
    bring it to a multiple of 64, all the arrays one right behind the
    other, and zero bytes up to the size of the vector.  (For a layout
    below 2^64 and a call of [pack] that wrote nothing outside its
    vector.) *)
Theorem pack_stream (ranges : list ByteRange) (stream : list byte) :
  fits ranges ->
  pack ranges = Returns stream ->
  stream
  = object_bytes (make_header (compute_offsets ranges))
    ++ replicate 32 x00
    ++ (if (length ranges =? 0)%nat then []
        else flat_map object_bytes (compute_offsets ranges)
             ++ replicate (padding_count (16 * Z.of_nat (length ranges))) x00
             ++ concat ranges
             ++ replicate (Z.to_nat (compute_needed_size ranges
                                     - compute_data_start ranges)
                           - length (concat ranges)) x00).
Proof.
  intros Hfit Hret.
  apply pack_returns in Hret. destruct Hret as [_ ->].
  destruct (length ranges =? 0)%nat eqn:Hne.
  { apply Nat.eqb_eq in Hne. destruct ranges; [|discriminate].
    vm_compute. reflexivity. }
  pose proof (compute_data_start_fits ranges Hfit) as Hds.
  pose proof (layout_room ranges Hfit) as (R1 & R2 & R3 & R4).
  pose proof (arrays_room ranges Hfit) as Hroom.
  pose proof (compute_data_start_range ranges) as Hdsr.
  unfold pack_vector, pack_store.
  set (N := Z.to_nat (compute_needed_size ranges)).
  set (s := {| mem := replicate N x00; current := 0; overrun := false |}).
  unfold copy_to, bind. cbn [set_current].
  set (s0 := {| mem := mem s; current := 0; overrun := overrun s |}).
  set (offsets := compute_offsets ranges).
  assert (Hn : length offsets = length ranges) by apply compute_offsets_length.
  assert (Hlen0 : length (mem s0) = N) by apply length_replicate.
  assert (Hh0 : holds s0 0 []).
  { split; [reflexivity|]. cbn [mem s0 s app]. rewrite length_replicate.
    f_equal. lia. }
  pose proof (copy_to_object_holds (make_header offsets) s0 0%nat [] Hh0) as Hh1.
  pose proof (copy_to_object_spec (make_header offsets) 0%nat s0) as H1.
  rewrite Header_bytes_length in Hh1, H1.
  destruct (copy_to_object (make_header offsets) 0%nat s0) as [out1 s1].
  cbn [fst snd] in Hh1, H1. destruct H1 as (Hout1 & [L1 _] & Hcur1 & _).
  cbn [Nat.add] in Hout1, Hh1. subst out1.
  specialize (Hh1 ltac:(lia)). cbn [app] in Hh1.
  assert (Hc1 : current s1 = 32) by (rewrite Hcur1; reflexivity).
  pose proof (output_padding_holds s1 32%nat _ Hh1) as Hh2.
  pose proof (output_padding_spec 32%nat s1) as H2.
  rewrite Hc1 in Hh2, H2. change (padding_count 32) with 32%nat in Hh2, H2.
  destruct (output_padding 32%nat s1) as [out2 s2].
  cbn [fst snd] in Hh2, H2. destruct H2 as ([L2 _] & Hout2 & Hal2).
  cbn [Nat.add] in Hout2, Hh2. subst out2.
  specialize (Hh2 ltac:(lia)).
  apply is_aligned_true in Hal2. rewrite to_ulong_mod_64 in Hal2.
  rewrite Hn, Hne.
  pose proof (copy_offsets_holds offsets s2 64%nat _ Hh2) as Hh3.
  pose proof (copy_offsets_spec offsets 64%nat s2) as H3.
  pose proof (copy_offsets_current offsets 64%nat s2) as Hc3.
  destruct (copy_offsets offsets 64%nat s2) as [out3 s3].
  cbn [fst snd] in Hh3, H3, Hc3. destruct H3 as (Hout3 & [L3 _] & _).
  subst out3. specialize (Hh3 ltac:(lia)).
  assert (Hcount : padding_count (current s3)
                   = padding_count (16 * Z.of_nat (length ranges))).
  { apply padding_count_mod.
    rewrite Hc3, Hn, <- Zplus_mod_idemp_l, Hal2. reflexivity. }
  assert (Hpad : (64 + 16 * length offsets
                  + padding_count (16 * Z.of_nat (length ranges)))%nat
                 = Z.to_nat (compute_data_start ranges)).
  { rewrite Hds, Hn. unfold padding_count, round_up.
    Z.div_mod_to_equations. lia. }
  pose proof (output_padding_holds s3 (64 + 16 * length offsets)%nat _ Hh3)
    as Hh4.
  pose proof (output_padding_spec (64 + 16 * length offsets)%nat s3) as H4.
  rewrite Hcount in Hh4, H4. rewrite Hpad in Hh4, H4.
  destruct (output_padding (64 + 16 * length offsets)%nat s3) as [out4 s4].
  cbn [fst snd] in Hh4, H4. destruct H4 as ([L4 _] & Hout4 & _).
  subst out4. specialize (Hh4 ltac:(lia)).
  pose proof (copy_arrays_holds ranges s4 _ _ Hh4 ltac:(lia)) as Hh5.
  pose proof (copy_arrays_stable ranges
                (Z.to_nat (compute_data_start ranges)) s4) as [L5 _].
  destruct (copy_arrays ranges (Z.to_nat (compute_data_start ranges)) s4)
    as [out5 s5].
  cbn [ret fst snd] in *. destruct Hh5 as [_ Hm5].
  rewrite Hm5, <- !app_assoc. do 5 f_equal.
  f_equal. rewrite L5, L4, L3, L2, L1, Hlen0. unfold N. lia.
Qed.

Lemma pack_stream_witness :
  fits two_arrays
  /\ pack two_arrays = Returns (pack_vector two_arrays)
  /\ pack_vector two_arrays
     = object_bytes (make_header (compute_offsets two_arrays))
       ++ replicate 32 x00
       ++ (if (length two_arrays =? 0)%nat then []
           else flat_map object_bytes (compute_offsets two_arrays)
                ++ replicate (padding_count (16 * Z.of_nat (length two_arrays))) x00
                ++ concat two_arrays
                ++ replicate (Z.to_nat (compute_needed_size two_arrays
                                        - compute_data_start two_arrays)
                              - length (concat two_arrays)) x00).
Proof.
  assert (Hfit : fits two_arrays) by reflexivity.
  assert (Hret : pack two_arrays = Returns (pack_vector two_arrays))
    by (apply pack_inside; vm_compute; reflexivity).
  split; [exact Hfit|]. split; [exact Hret|].
  exact (pack_stream two_arrays _ Hfit Hret).
Defined.

End PackedBytes.
